(** * fix-all-relations.py: commenting out relations on nullable foreign keys

    A shallow embedding of [fix-all-relations.py].  The script reads
    [shared/schema.ts], and for each name of [nullable_fields] searches the
    text with one regular expression, replaces every match by a line-wise
    commented copy ([str.replace] on the whole buffer) and writes the buffer
    back.

    Text is a list of characters.  A character is a code point of the range
    U+0000..U+00FF (Rocq's [ascii]); the two character tables of Python that
    the script relies on ([str.isspace], used by [\s] and by [str.strip], and
    the alphanumeric table behind [\w]) are written out in full for that
    range. *)

From Stdlib Require Import Ascii String Arith Lia Bool List.
Import ListNotations.

#[local] Arguments Ascii.eqb : simpl never.

Abbreviation text := (list ascii).

(** String literals of the script, as texts. *)
Definition T (s : string) : text := list_ascii_of_string s.

Definition nl : ascii := "010"%char.

(** ** Character tables *)

Definition between (lo hi n : nat) : bool := (lo <=? n) && (n <=? hi).

(** [str.isspace] on one character; also the class [\s] of [re] for [str]
    patterns. *)
Definition isspace (c : ascii) : bool :=
  let n := nat_of_ascii c in
  between 9 13 n || between 28 32 n || (n =? 133) || (n =? 160).

(** [str.isalnum] on one character: alphabetic, decimal, digit or numeric. *)
Definition isalnum (c : ascii) : bool :=
  let n := nat_of_ascii c in
  between 48 57 n || between 65 90 n || between 97 122 n
  || (n =? 170) || (n =? 178) || (n =? 179) || (n =? 181) || (n =? 185)
  || (n =? 186) || between 188 190 n
  || between 192 214 n || between 216 246 n || between 248 255 n.

(** The class [\w]: alphanumeric or underscore. *)
Definition isword (c : ascii) : bool := isalnum c || Ascii.eqb c "_".

(** ** The regular expression

    The pattern of the script is a concatenation of literal characters and of
    quantified one-character classes, so that is the syntax modelled. *)

Inductive charset : Type :=
| Space                (* \s *)
| Word                 (* \w *)
| Not (c : ascii)      (* [^c] *)
| Any.                 (* .  under re.DOTALL *)

Definition in_set (k : charset) (c : ascii) : bool :=
  match k with
  | Space => isspace c
  | Word => isword c
  | Not d => negb (Ascii.eqb c d)
  | Any => true
  end.

Inductive item : Type :=
| Lit (c : ascii)          (* one literal character *)
| Plus (k : charset)       (* k+   greedy *)
| Star (k : charset)       (* k*   greedy *)
| LazyStar (k : charset).  (* k*?  lazy   *)

Definition lits (s : text) : list item := map Lit s.

(** rf'(\s+)(\w+): one\([^,]+,\s*{{\s*fields:\s*\[[^\]]*\.{field}\],.*?}}\)'
    The field name is spliced in as it is; every configured name consists of
    letters only, so it stands for itself. *)
Definition pattern (field : text) : list item :=
  [Plus Space; Plus Word] ++ lits (T ": one(")
  ++ [Plus (Not ","); Lit ","; Star Space; Lit "{"; Star Space]
  ++ lits (T "fields:")
  ++ [Star Space; Lit "["; Star (Not "]"); Lit "."] ++ lits field
  ++ lits (T "],")
  ++ [LazyStar Any; Lit "}"; Lit ")"].

(** ** The backtracking matcher

    A successful match is reported as the list of the chunks of text consumed
    by the items, in order.  [rest] is the matcher of the items that follow. *)

Definition push (x : ascii) (r : list text) : list text :=
  match r with
  | c :: cs => (x :: c) :: cs
  | [] => [[x]]
  end.

(** Greedy repetition: take one more character when possible, and give it
    back when what follows cannot match. *)
Fixpoint greedy (k : charset) (rest : text -> option (list text)) (s : text)
  : option (list text) :=
  let stop := option_map (cons []) (rest s) in
  match s with
  | x :: s' =>
      if in_set k x then
        match greedy k rest s' with
        | Some r => Some (push x r)
        | None => stop
        end
      else stop
  | [] => stop
  end.

(** Lazy repetition: try what follows first, take one more character only
    when that fails. *)
Fixpoint lazy (k : charset) (rest : text -> option (list text)) (s : text)
  : option (list text) :=
  match rest s with
  | Some r => Some ([] :: r)
  | None =>
      match s with
      | x :: s' => if in_set k x then option_map (push x) (lazy k rest s') else None
      | [] => None
      end
  end.

Fixpoint match_items (p : list item) : text -> option (list text) :=
  match p with
  | [] => fun _ => Some []
  | Lit c :: p' => fun s =>
      match s with
      | x :: s' =>
          if Ascii.eqb x c then option_map (cons [x]) (match_items p' s') else None
      | [] => None
      end
  | Plus k :: p' => fun s =>
      match s with
      | x :: s' =>
          if in_set k x then option_map (push x) (greedy k (match_items p') s')
          else None
      | [] => None
      end
  | Star k :: p' => greedy k (match_items p')
  | LazyStar k :: p' => lazy k (match_items p')
  end.

(** A match object: where it starts and the chunks of its items. *)
Record Match : Type := { m_start : nat; m_chunks : list text }.

(** match.group(0): the whole matched text. *)
Definition group0 (m : Match) : text := concat (m_chunks m).

(** match.group(1): the first group, [(\s+)], is the first item. *)
Definition group1 (m : Match) : text := hd [] (m_chunks m).

(** re.finditer: the non-overlapping matches, leftmost first.  [skip] counts
    the characters of the previous match still to step over; after a match
    the search resumes where the match ended (a match of the pattern of the
    script is never empty). *)
Fixpoint finditer_from (p : list item) (pos skip : nat) (s : text) : list Match :=
  match skip with
  | S k =>
      match s with
      | _ :: s' => finditer_from p (S pos) k s'
      | [] => []
      end
  | O =>
      match match_items p s with
      | Some cs =>
          {| m_start := pos; m_chunks := cs |} ::
          match s with
          | _ :: s' => finditer_from p (S pos) (length (concat cs) - 1) s'
          | [] => []
          end
      | None =>
          match s with
          | _ :: s' => finditer_from p (S pos) 0 s'
          | [] => []
          end
      end
  end.

Definition finditer (p : list item) (s : text) : list Match := finditer_from p 0 0 s.

(** ** String methods *)

(** str.split('\n') *)
Fixpoint split_nl (s : text) : list text :=
  match s with
  | [] => [[]]
  | c :: s' => if Ascii.eqb c nl then [] :: split_nl s' else push c (split_nl s')
  end.

(** sep.join(parts) *)
Fixpoint join (sep : text) (parts : list text) : text :=
  match parts with
  | [] => []
  | [p] => p
  | p :: ps => p ++ sep ++ join sep ps
  end.

Fixpoint lstrip (s : text) : text :=
  match s with
  | c :: s' => if isspace c then lstrip s' else s
  | [] => []
  end.

Definition rstrip (s : text) : text := rev (lstrip (rev s)).

(** str.strip() *)
Definition strip (s : text) : text := rstrip (lstrip s).

(** Truth value of a string: non-empty. *)
Definition truthy (s : text) : bool :=
  match s with
  | [] => false
  | _ :: _ => true
  end.

(** old is a prefix of s *)
Fixpoint startswith (old s : text) : bool :=
  match old, s with
  | [], _ => true
  | o :: old', c :: s' => Ascii.eqb o c && startswith old' s'
  | _ :: _, [] => false
  end.

(** str.replace(old, new) for a non-empty [old]: the non-overlapping
    occurrences, leftmost first.  [skip] counts the characters of the
    occurrence just replaced that are still to be stepped over. *)
Fixpoint replace_from (old new : text) (skip : nat) (s : text) : text :=
  match s with
  | [] => []
  | c :: s' =>
      match skip with
      | S k => replace_from old new k s'
      | O =>
          if startswith old s then new ++ replace_from old new (length old - 1) s'
          else c :: replace_from old new 0 s'
      end
  end.

(** With an empty [old], [new] is put before every character and at the end. *)
Fixpoint intersperse (new s : text) : text :=
  match s with
  | [] => new
  | c :: s' => new ++ c :: intersperse new s'
  end.

Definition replace (s old new : text) : text :=
  match old with
  | [] => intersperse new s
  | _ :: _ => replace_from old new 0 s
  end.

(** str.find(old): the offset of the leftmost occurrence of [old].  The
    script does not call it; it serves to say where occurrences are. *)
Fixpoint find_from (old : text) (pos : nat) (s : text) : option nat :=
  if startswith old s then Some pos
  else
    match s with
    | [] => None
    | _ :: s' => find_from old (S pos) s'
    end.

Definition find (s old : text) : option nat := find_from old 0 s.

(** ** The script *)

Definition nullable_fields : list text :=
  map T
    [ "encounterId"; "appointmentId"; "orderedBy"; "prescriber"; "labOrderId";
      "pharmacyId"; "providerId"; "locationId"; "healthSystemId"; "reviewedBy";
      "verifiedBy"; "addedBy"; "resolvedBy"; "externalLabId"; "attachmentId";
      "parentId"; "userId"; "electronicSignatureId"; "medicationId";
      "preferredPharmacyId"; "setBy"; "examinedBy"; "imagingOrderId";
      "lastUpdatedBy" ]%string.

(** f'{indent}// {line}' if line.strip() else line *)
Definition comment_line (indent line : text) : text :=
  if truthy (strip line) then indent ++ T "// " ++ line else line.

(** '\n'.join([... for line in original.split('\n')]) *)
Definition comment (original indent : text) : text :=
  join [nl] (map (comment_line indent) (split_nl original)).

(** The body of the inner loop: content = content.replace(original, commented) *)
Definition apply_match (content : text) (m : Match) : text :=
  replace content (group0 m) (comment (group0 m) (group1 m)).

(** The inner loop.  The matches are those found in the buffer as it was when
    [re.finditer] was called. *)
Definition process_field (content field : text) : text :=
  fold_left apply_match (finditer (pattern field) content) content.

(** The outer loop. *)
Definition rewrite (fields : list text) (content : text) : text :=
  fold_left process_field fields content.

(** The matches used by the replacements of a run, in the order of the
    replacements: those of the first field in the buffer as read, then those
    of the second field in the buffer the first field left, and so on. *)
Fixpoint run_matches (fields : list text) (content : text) : list Match :=
  match fields with
  | [] => []
  | f :: fields' =>
      finditer (pattern f) content
      ++ run_matches fields' (process_field content f)
  end.

(** * Running the script

    The script reads the file, computes the new buffer in memory, opens the
    same file with mode ['w'] and writes the buffer.  The world is the content
    of [shared/schema.ts], whether the file can be opened for writing, what
    the device still accepts, the standard output and the log of what was
    done to the file. *)

Inductive event : Type :=
| OpenRead               (* open('shared/schema.ts', 'r') *)
| Read                   (* f.read() *)
| OpenWrite              (* open('shared/schema.ts', 'w') succeeded: the file is emptied *)
| OpenWriteRefused       (* open('shared/schema.ts', 'w') raised: nothing is opened *)
| Write (data : text)    (* f.write(content): the characters that reached the file *)
| Print (msg : text).    (* print(...) *)

Record world : Type := {
  schema_ts : option text;  (* None: the file cannot be opened for reading *)
  writable : bool;          (* false: the file cannot be opened for writing *)
  capacity : option nat;    (* Some n: writing fails once n characters are written *)
  stdout : list text;
  log : list event
}.

(** A computation either returns a value or raises an exception ([None]);
    its effects on the world stay in both cases. *)
Definition io (A : Type) : Type := world -> option A * world.

Definition ret {A : Type} (a : A) : io A := fun w => (Some a, w).

Definition bind {A B : Type} (c : io A) (k : A -> io B) : io B :=
  fun w =>
    match c w with
    | (Some a, w') => k a w'
    | (None, w') => (None, w')
    end.

Notation "x <- c ;; k" := (bind c (fun x => k))
  (at level 61, c at next level, right associativity).

Definition record (e : event) (w : world) : world :=
  {| schema_ts := schema_ts w; writable := writable w;
     capacity := capacity w; stdout := stdout w;
     log := log w ++ [e] |}.

Definition set_file (c : text) (w : world) : world :=
  {| schema_ts := Some c; writable := writable w;
     capacity := capacity w; stdout := stdout w;
     log := log w |}.

(** with open('shared/schema.ts', 'r') as f: content = f.read() *)
Definition read_schema : io text :=
  fun w =>
    match schema_ts w with
    | Some c => (Some c, record Read (record OpenRead w))
    | None => (None, record OpenRead w)
    end.

(** open('shared/schema.ts', 'w'): the file is emptied when it can be opened
    for writing; otherwise open raises (PermissionError, a read-only file
    system) and the file is left as it is. *)
Definition open_write : io unit :=
  fun w =>
    if writable w
    then (Some tt, record OpenWrite (set_file [] w))
    else (None, record OpenWriteRefused w).

(** f.write(data), up to the closing of the file *)
Definition write_schema (data : text) : io unit :=
  fun w =>
    let written :=
      match capacity w with
      | Some n => firstn n data
      | None => data
      end in
    let w' := record (Write written)
                (set_file (match schema_ts w with
                           | Some c => c ++ written
                           | None => written
                           end) w) in
    if length written <? length data then (None, w') else (Some tt, w').

Definition print (msg : text) : io unit :=
  fun w =>
    (Some tt,
     record (Print msg)
       {| schema_ts := schema_ts w; writable := writable w;
          capacity := capacity w;
          stdout := stdout w ++ [msg]; log := log w |}).

Definition done_message : text := T "Fixed all nullable foreign key relations".

Definition main : io unit :=
  content <- read_schema ;;
  _ <- open_write ;;
  _ <- write_schema (rewrite nullable_fields content) ;;
  print done_message.

(** The world before a run: the file as it is, nothing printed or logged. *)
Definition before_run (file : option text) (can_write : bool)
                      (cap : option nat) : world :=
  {| schema_ts := file; writable := can_write; capacity := cap;
     stdout := []; log := [] |}.

(** * The components as the specification words them

    The specification describes a delimiter-balance scanner and an exact
    field matcher.  They are written down here from its text, to be compared
    with what the regular expression of the script does. *)

Inductive delimiter : Type := Parenthesis | Brace | Bracket.

Definition spec_opening (c : ascii) : option delimiter :=
  if Ascii.eqb c "(" then Some Parenthesis
  else if Ascii.eqb c "{" then Some Brace
  else if Ascii.eqb c "[" then Some Bracket
  else None.

Definition spec_closing (c : ascii) : option delimiter :=
  if Ascii.eqb c ")" then Some Parenthesis
  else if Ascii.eqb c "}" then Some Brace
  else if Ascii.eqb c "]" then Some Bracket
  else None.

Definition spec_same_delimiter (a b : delimiter) : bool :=
  match a, b with
  | Parenthesis, Parenthesis | Brace, Brace | Bracket, Bracket => true
  | _, _ => false
  end.

(** Specification 4.2: push on an opening delimiter, pop on a matching
    closing one; the declaration ends right after the delimiter whose pop
    empties the stack; reaching the end of the text first is the failure
    [UnbalancedDelimiters] ([None]). *)
Fixpoint spec_scan_from (stack : list delimiter) (pos : nat) (s : text)
  : option nat :=
  match s with
  | [] => None
  | c :: s' =>
      match spec_opening c with
      | Some d => spec_scan_from (d :: stack) (S pos) s'
      | None =>
          match spec_closing c, stack with
          | Some d, top :: below =>
              if spec_same_delimiter d top then
                match below with
                | [] => Some (S pos)
                | _ :: _ => spec_scan_from below (S pos) s'
                end
              else spec_scan_from stack (S pos) s'
          | _, _ => spec_scan_from stack (S pos) s'
          end
      end
  end.

Definition spec_scan (sourceText : text) (startOffset : nat) : option nat :=
  spec_scan_from [] startOffset (skipn startOffset sourceText).

(** Characters of a field reference: those of an identifier, and the dot
    that qualifies it. *)
Definition spec_isrefchar (c : ascii) : bool := isword c || Ascii.eqb c ".".

(** The field references of a text: its maximal runs of such characters. *)
Fixpoint spec_references (s : text) : list text :=
  match s with
  | [] => [[]]
  | c :: s' => if spec_isrefchar c then push c (spec_references s') else [] :: spec_references s'
  end.

(** A reference without its qualifying prefix: what follows its last dot. *)
Definition spec_unqualified (r : text) : text :=
  fold_left (fun acc c => if Ascii.eqb c "." then [] else acc ++ [c]) r [].

(** The argument list of a block: what follows its first parenthesis. *)
Fixpoint spec_argument_list (block : text) : text :=
  match block with
  | [] => []
  | c :: s => if Ascii.eqb c "(" then s else spec_argument_list s
  end.

Definition text_eqb (a b : text) : bool :=
  if list_eq_dec ascii_dec a b then true else false.

(** Specification 4.1: true iff the argument list of the block contains a
    field reference equal, once its qualifying prefix is stripped, to a name
    of [targetFields]. *)
Definition spec_matches (blockText : text) (targetFields : list text) : bool :=
  existsb (fun r => existsb (text_eqb (spec_unqualified r)) targetFields)
          (spec_references (spec_argument_list blockText)).

(** What the script has in place of a field matcher: the pattern of some
    target field matches somewhere in the block. *)
Definition field_matches (block : text) (targetFields : list text) : bool :=
  existsb (fun f => match finditer (pattern f) block with
                    | [] => false
                    | _ :: _ => true
                    end) targetFields.

(** Offset right after a match. *)
Definition m_end (m : Match) : nat := m_start m + length (group0 m).

(** * Predicates used in the statements *)

(** What the chunk consumed by an item looks like. *)
Definition item_ok (i : item) (t : text) : Prop :=
  match i with
  | Lit c => t = [c]
  | Plus k => t <> [] /\ forallb (in_set k) t = true
  | Star k => forallb (in_set k) t = true
  | LazyStar k => forallb (in_set k) t = true
  end.

(** The chunk of a literal character. *)
Definition single (c : ascii) : text := [c].

(** The items before the lazy tail of the pattern. *)
Definition pattern_head (field : text) : list item :=
  [Plus Space; Plus Word] ++ lits (T ": one(")
  ++ [Plus (Not ","); Lit ","; Star Space; Lit "{"; Star Space]
  ++ lits (T "fields:")
  ++ [Star Space; Lit "["; Star (Not "]"); Lit "."] ++ lits field
  ++ lits (T "],").

Definition pattern_tail : list item := [LazyStar Any; Lit "}"; Lit ")"].

(** [a] is [b] with some characters left out: [b] is [a] with insertions. *)
Inductive Subseq : text -> text -> Prop :=
| Subseq_nil : Subseq [] []
| Subseq_keep c a b : Subseq a b -> Subseq (c :: a) (c :: b)
| Subseq_ins c a b : Subseq a b -> Subseq a (c :: b).

#[local] Hint Constructors Subseq : core.

(** The texts matched by the pattern of [field], with the white space that
    opens them: an identifier bound to a call of [one], whose first argument
    has no comma and whose second argument opens with a [fields:] array that
    ends in [.field]. *)
Definition relation_shape (field indent block : text) : Prop :=
  exists ident arg1 w1 w2 w3 q tail,
    block = indent ++ ident ++ T ": one(" ++ arg1 ++ T "," ++ w1 ++ T "{" ++ w2
            ++ T "fields:" ++ w3 ++ T "[" ++ q ++ T "." ++ field ++ T "],"
            ++ tail ++ T "})"
    /\ (indent <> [] /\ forallb isspace indent = true)
    /\ (ident <> [] /\ forallb isword ident = true)
    /\ (arg1 <> [] /\ ~ In ","%char arg1)
    /\ forallb isspace w1 = true /\ forallb isspace w2 = true
    /\ forallb isspace w3 = true
    /\ ~ In "]"%char q.

(** Number of lines of a text that [line.strip()] finds non-empty: the lines
    the commenter prefixes. *)
Definition nonblank_lines (s : text) : nat :=
  length (filter (fun l => truthy (strip l)) (split_nl s)).

(** Number of line feeds of a text. *)
Definition line_feeds (s : text) : nat := count_occ ascii_dec s nl.

(** A physical line that holds no code: it is blank, or the first characters
    after its leading white space are the comment marker. *)
Definition commented_out (l : text) : bool :=
  negb (truthy (lstrip l)) || startswith (T "//") (lstrip l).

(** * Sample inputs *)

(** A text given line by line. *)
Definition lines (ls : list string) : text := join [nl] (map T ls).

Definition userId : text := T "userId".

(** Scenario A of the specification, on a line of its own. *)
Definition scenario_a : text :=
  lines [ "";
          "  foo: one(bar, { fields: [baz.userId], references: [bar.id] })" ]%string.

(** A relation whose argument object holds a nested call on an object. *)
Definition nested_block : text :=
  lines [ "x";
          "  a: one(b, { fields: [c.userId], references: [g({ k: [1] })] })" ]%string.

(** A relation that references [userId], but not as the last element of the
    [fields:] array. *)
Definition not_last_block : text :=
  lines [ "";
          "  a: one(b, { fields: [c.userId, c.tenantId], references: [d.id, d.tenant] })" ]%string.

(** A relation laid out the usual way, one argument per line. *)
Definition typical_schema : text :=
  lines [ "export const postsRelations = relations(posts, ({ one }) => ({";
          "  author: one(users, {";
          "    fields: [posts.userId],";
          "    references: [users.id],";
          "  }),";
          "}));" ]%string.

(** The same one-line relation twice, the second one after a line feed. *)
Definition same_block_twice : text :=
  lines [ " a: one(b, { fields: [c.userId], })";
          " a: one(b, { fields: [c.userId], })" ]%string.

(** A text in which no pattern matches. *)
Definition plain_text : text :=
  lines [ "export const users = pgTable('users', {";
          "  id: serial('id').primaryKey(),";
          "});" ]%string.

Definition first_match (field content : text) : Match :=
  hd {| m_start := 0; m_chunks := [] |} (finditer (pattern field) content).

(** The first match in [same_block_twice], and what follows its text. *)
Definition twice_match : Match := first_match userId same_block_twice.

Definition twice_rest : text := nl :: T " a: one(b, { fields: [c.userId], })".




(** [typical_schema] on a device that fails after 40 characters. *)
Definition failing_device : world :=
  before_run (Some typical_schema) true (Some 40).

(** * Properties of the matcher *)

Section Repetition.

Variable k : charset.
Variable rest : text -> option (list text).

Lemma greedy_inv s r :
  greedy k rest s = Some r ->
  exists t r' s',
    r = t :: r' /\ forallb (in_set k) t = true /\ s = t ++ s' /\ rest s' = Some r'.
Proof.
  revert r; induction s as [|x s IH]; intros r; simpl.
  - destruct (rest []) as [r'|] eqn:E; simpl; [|discriminate].
    intros [= <-]. now exists [], r', [].
  - assert (Hstop : option_map (cons []) (rest (x :: s)) = Some r ->
                    exists t r' s', r = t :: r' /\ forallb (in_set k) t = true
                                    /\ x :: s = t ++ s' /\ rest s' = Some r').
    { destruct (rest (x :: s)) as [r'|] eqn:E; simpl; [|discriminate].
      intros [= <-]. now exists [], r', (x :: s). }
    destruct (in_set k x) eqn:Hx; [|exact Hstop].
    destruct (greedy k rest s) as [r0|] eqn:E; [|exact Hstop].
    intros [= <-].
    destruct (IH r0 eq_refl) as (t & r' & s' & -> & Ht & -> & Hr).
    exists (x :: t), r', s'. simpl. now rewrite Hx, Ht.
Qed.

Lemma lazy_inv s r :
  lazy k rest s = Some r ->
  exists t r' s',
    r = t :: r' /\ forallb (in_set k) t = true /\ s = t ++ s' /\ rest s' = Some r'
    /\ forall t1 y t2, t = t1 ++ y :: t2 -> rest (y :: t2 ++ s') = None.
Proof.
  revert r; induction s as [|x s IH]; intros r; simpl.
  - destruct (rest []) as [r'|] eqn:E; [|discriminate].
    intros [= <-]. exists [], r', []. repeat split; auto.
    intros [|? ?] ? ? ?; discriminate.
  - destruct (rest (x :: s)) as [r'|] eqn:E.
    + intros [= <-]. exists [], r', (x :: s). repeat split; auto.
      intros [|? ?] ? ? ?; discriminate.
    + destruct (in_set k x) eqn:Hx; [|discriminate].
      destruct (lazy k rest s) as [r0|] eqn:E0; [|discriminate].
      simpl. intros [= <-].
      destruct (IH r0 eq_refl) as (t & r' & s' & -> & Ht & -> & Hr & Hmin).
      exists (x :: t), r', s'. simpl. rewrite Hx, Ht. repeat split; auto.
      intros [|z t1] y t2 Heq; simpl in Heq; injection Heq as -> ->.
      * exact E.
      * eapply Hmin; reflexivity.
Qed.

End Repetition.

(** A match of [p1 ++ p2] is a way to read a prefix of the text as [p1],
    followed by the match of [p2] on what is left. *)
Lemma match_items_app p1 p2 s cs :
  match_items (p1 ++ p2) s = Some cs ->
  exists c1 c2 s2,
    cs = c1 ++ c2 /\ Forall2 item_ok p1 c1 /\ s = concat c1 ++ s2
    /\ match_items p2 s2 = Some c2.
Proof.
  revert s cs; induction p1 as [|i p1 IH]; intros s cs H; simpl in H.
  - exists [], cs, s. auto.
  - destruct i as [c|k|k|k].
    + destruct s as [|x s]; [discriminate|].
      destruct (Ascii.eqb_spec x c) as [->|]; [|discriminate].
      destruct (match_items (p1 ++ p2) s) as [r|] eqn:E; [|discriminate].
      injection H as <-.
      destruct (IH _ _ E) as (c1 & c2 & s2 & -> & HF & -> & H2).
      exists ([c] :: c1), c2, s2. repeat split; auto; constructor; simpl; auto.
    + destruct s as [|x s]; [discriminate|].
      destruct (in_set k x) eqn:Hx; [|discriminate].
      destruct (greedy k (match_items (p1 ++ p2)) s) as [r|] eqn:E; [|discriminate].
      injection H as <-.
      destruct (greedy_inv _ _ _ _ E) as (t & r' & s' & -> & Ht & -> & Hr).
      destruct (IH _ _ Hr) as (c1 & c2 & s2 & -> & HF & -> & H2).
      exists ((x :: t) :: c1), c2, s2. simpl. rewrite <- app_assoc.
      assert (item_ok (Plus k) (x :: t)).
      { simpl. rewrite Hx, Ht. split; [discriminate|reflexivity]. }
      repeat split; auto.
    + destruct (greedy_inv _ _ _ _ H) as (t & r' & s' & -> & Ht & -> & Hr).
      destruct (IH _ _ Hr) as (c1 & c2 & s2 & -> & HF & -> & H2).
      exists (t :: c1), c2, s2. simpl. rewrite <- app_assoc.
      assert (item_ok (Star k) t) by exact Ht.
      repeat split; auto.
    + destruct (lazy_inv _ _ _ _ H) as (t & r' & s' & -> & Ht & -> & Hr & _).
      destruct (IH _ _ Hr) as (c1 & c2 & s2 & -> & HF & -> & H2).
      exists (t :: c1), c2, s2. simpl. rewrite <- app_assoc.
      assert (item_ok (LazyStar k) t) by exact Ht.
      repeat split; auto.
Qed.

Lemma match_items_sound p s cs :
  match_items p s = Some cs ->
  Forall2 item_ok p cs /\ exists rest, s = concat cs ++ rest.
Proof.
  intros H. rewrite <- (app_nil_r p) in H.
  destruct (match_items_app _ _ _ _ H) as (c1 & c2 & s2 & -> & HF & -> & H2).
  simpl in H2. injection H2 as <-. rewrite app_nil_r. eauto.
Qed.

(** Every match reported by [finditer] is a match of the pattern at its
    start offset. *)
Lemma finditer_from_sound p m s : forall pos skip,
  In m (finditer_from p pos skip s) ->
  exists a b,
    s = a ++ b /\ m_start m = pos + length a
    /\ match_items p b = Some (m_chunks m).
Proof.
  induction s as [|x s IH]; intros pos skip H.
  - destruct skip; simpl in H; [|contradiction].
    destruct (match_items p []) as [cs|] eqn:E; [|contradiction].
    destruct H as [<-|[]]. exists [], []. simpl. auto.
  - assert (Hnext : forall k, In m (finditer_from p (S pos) k s) ->
              exists a b, x :: s = a ++ b /\ m_start m = pos + length a
                          /\ match_items p b = Some (m_chunks m)).
    { intros k Hk. destruct (IH _ _ Hk) as (a & b & -> & Hs & Hm).
      exists (x :: a), b. simpl. repeat split; auto. lia. }
    destruct skip; simpl in H; [|eauto].
    destruct (match_items p (x :: s)) as [cs|] eqn:E; [|eauto].
    destruct H as [<-|H]; [|eauto].
    exists [], (x :: s). simpl. auto.
Qed.

Lemma finditer_sound p m s :
  In m (finditer p s) ->
  exists a b, s = a ++ group0 m ++ b /\ m_start m = length a
              /\ match_items p (group0 m ++ b) = Some (m_chunks m)
              /\ Forall2 item_ok p (m_chunks m).
Proof.
  intros H. destruct (finditer_from_sound _ _ _ _ _ H) as (a & b & -> & Hs & Hm).
  destruct (match_items_sound _ _ _ Hm) as (HF & rest & ->).
  exists a, rest. auto.
Qed.

(** ** The texts the pattern matches *)

Lemma lits_chunks t cs : Forall2 item_ok (lits t) cs -> cs = map single t.
Proof.
  revert cs; induction t as [|c t IH]; intros cs H; inversion H; subst; simpl.
  - reflexivity.
  - f_equal; auto.
Qed.

Lemma concat_singles t : concat (map single t) = t.
Proof. induction t; simpl; congruence. Qed.

Lemma not_set_spec c t : forallb (in_set (Not c)) t = true -> ~ In c t.
Proof.
  induction t as [|x t IH]; simpl; [tauto|].
  intros H; apply andb_true_iff in H as [Hx Ht].
  intros [->|Hin]; [|now apply IH].
  now rewrite Ascii.eqb_refl in Hx.
Qed.

(** The chunks of a match of [pattern field], item by item. *)
Lemma pattern_chunks field cs :
  Forall2 item_ok (pattern field) cs ->
  exists ws ident arg1 w1 w2 w3 q tail,
    cs = [ws; ident] ++ map single (T ": one(")
         ++ [arg1; T ","; w1; T "{"; w2] ++ map single (T "fields:")
         ++ [w3; T "["; q; T "."] ++ map single field ++ map single (T "],")
         ++ [tail; T "}"; T ")"]
    /\ (ws <> [] /\ forallb isspace ws = true)
    /\ (ident <> [] /\ forallb isword ident = true)
    /\ (arg1 <> [] /\ ~ In ","%char arg1)
    /\ forallb isspace w1 = true /\ forallb isspace w2 = true
    /\ forallb isspace w3 = true
    /\ ~ In "]"%char q.
Proof.
  unfold pattern; simpl; intros H.
  repeat match goal with
         | H : Forall2 item_ok (_ :: _) _ |- _ => inversion H; subst; clear H
         end.
  match goal with
  | H : Forall2 item_ok (lits field ++ _) _ |- _ =>
      apply Forall2_app_inv_l in H as (cf & ct & Hf & Ht & ->)
  end.
  apply lits_chunks in Hf; subst cf.
  repeat match goal with
         | H : Forall2 item_ok (_ :: _) _ |- _ => inversion H; subst; clear H
         | H : Forall2 item_ok [] _ |- _ => inversion H; subst; clear H
         end.
  simpl in *.
  repeat match goal with
         | H : _ = [_] |- _ => subst
         | H : _ /\ _ |- _ => destruct H
         end.
  do 8 eexists. split; [reflexivity|].
  repeat split; auto using not_set_spec.
Qed.

Lemma pattern_split field : pattern field = pattern_head field ++ pattern_tail.
Proof.
  unfold pattern, pattern_head, pattern_tail.
  repeat rewrite <- app_assoc. reflexivity.
Qed.

Lemma closing_pair_inv u r :
  match_items [Lit "}"; Lit ")"] u = Some r -> exists v, u = T "})" ++ v.
Proof.
  simpl. destruct u as [|a [|b v]]; try discriminate.
  - destruct (Ascii.eqb a "}"); discriminate.
  - destruct (Ascii.eqb_spec a "}") as [->|]; [|discriminate].
    destruct (Ascii.eqb_spec b ")") as [->|]; [|discriminate].
    intros _. now exists v.
Qed.

Lemma closing_pair_none y t v :
  match_items [Lit "}"; Lit ")"] (y :: t ++ T "})" ++ v) = None ->
  startswith (T "})") (y :: t ++ T "})") = false.
Proof.
  simpl. destruct (Ascii.eqb_spec y "}") as [->|Hy]; simpl.
  - destruct t as [|b t]; simpl; [reflexivity|].
    destruct (Ascii.eqb_spec b ")") as [->|Hb]; simpl; [discriminate|].
    intros _. apply andb_false_intro1. apply Ascii.eqb_neq. congruence.
  - intros _. apply andb_false_intro1. apply Ascii.eqb_neq. congruence.
Qed.

Lemma app_inj_last3 (A : Type) (l1 l2 : list A) a b c a' b' c' :
  l1 ++ [a; b; c] = l2 ++ [a'; b'; c'] -> l1 = l2 /\ a = a'.
Proof.
  intros H.
  change (l1 ++ [a; b; c]) with (l1 ++ [a] ++ [b] ++ [c]) in H.
  change (l2 ++ [a'; b'; c']) with (l2 ++ [a'] ++ [b'] ++ [c']) in H.
  rewrite !app_assoc in H.
  apply app_inj_tail in H as [H _].
  apply app_inj_tail in H as [H _].
  apply app_inj_tail in H as [H ?]. auto.
Qed.

(** The lazy tail stops at the first "})": no "})" begins inside the text it
    consumed. *)
Lemma pattern_tail_minimal field s cs :
  match_items (pattern field) s = Some cs ->
  exists c1 tail,
    cs = c1 ++ [tail; T "}"; T ")"]
    /\ forall t1 y t2, tail = t1 ++ y :: t2 ->
                       startswith (T "})") (y :: t2 ++ T "})") = false.
Proof.
  intros H. rewrite pattern_split in H.
  destruct (match_items_app _ _ _ _ H) as (c1 & c2 & s2 & -> & HF & -> & H2).
  unfold pattern_tail in H2. simpl match_items in H2.
  destruct (lazy_inv _ _ _ _ H2) as (t & r' & s' & -> & Ht & -> & Hr & Hmin).
  destruct (closing_pair_inv _ _ Hr) as (v & ->).
  assert (r' = [T "}"; T ")"]) as -> by (cbv in Hr; now injection Hr as <-).
  exists c1, t. split; [reflexivity|].
  intros t1 y t2 ->. eapply closing_pair_none. eapply Hmin. reflexivity.
Qed.

(** * Properties of the string methods *)

Lemma Subseq_refl a : Subseq a a.
Proof. induction a; auto. Qed.

Lemma Subseq_prepend x a b : Subseq a b -> Subseq a (x ++ b).
Proof. induction x; simpl; auto. Qed.

Lemma Subseq_app a b c d : Subseq a b -> Subseq c d -> Subseq (a ++ c) (b ++ d).
Proof. induction 1; simpl; auto. Qed.

Lemma Subseq_trans b c : Subseq b c -> forall a, Subseq a b -> Subseq a c.
Proof.
  induction 1; intros a' Ha; auto.
  inversion Ha; subst; auto.
Qed.

Lemma Subseq_length a b : Subseq a b -> length a <= length b.
Proof. induction 1; simpl; lia. Qed.

Lemma startswith_spec old s :
  startswith old s = true <-> exists r, s = old ++ r.
Proof.
  revert s; induction old as [|o old IH]; intros s; simpl.
  - split; eauto.
  - destruct s as [|c s].
    + split; [discriminate|]. intros (r & Hr). discriminate.
    + rewrite andb_true_iff, Ascii.eqb_eq, IH. split.
      * intros (-> & r & ->). eauto.
      * intros (r & Hr). injection Hr as -> ->. eauto.
Qed.

Lemma startswith_app old r : startswith old (old ++ r) = true.
Proof. apply startswith_spec. eauto. Qed.

Lemma replace_from_skip old new s : forall k,
  replace_from old new k s = replace_from old new 0 (skipn k s).
Proof.
  induction s as [|c s IH]; intros [|k]; simpl; auto.
Qed.

(** An occurrence at the front is replaced, and the scan resumes after it. *)
Lemma replace_from_hit old new r :
  old <> [] ->
  replace_from old new 0 (old ++ r) = new ++ replace_from old new 0 r.
Proof.
  destruct old as [|o old']; [contradiction|]. intros _.
  pose proof (startswith_app (o :: old') r) as H.
  change ((o :: old') ++ r) with (o :: (old' ++ r)) in *.
  cbn [replace_from]. rewrite H. f_equal.
  rewrite replace_from_skip. f_equal. cbn [length].
  rewrite Nat.sub_succ, Nat.sub_0_r, skipn_app, skipn_all, Nat.sub_diag.
  reflexivity.
Qed.

Lemma replace_from_miss old new c s :
  startswith old (c :: s) = false ->
  replace_from old new 0 (c :: s) = c :: replace_from old new 0 s.
Proof. cbn [replace_from]. intros ->. reflexivity. Qed.

Lemma replace_from_supseq old new s :
  old <> [] -> Subseq old new ->
  forall k, Subseq (skipn k s) (replace_from old new k s).
Proof.
  intros Hne Hon.
  induction s as [|c s IH]; intros k.
  - destruct k; simpl; auto.
  - destruct k as [|k]; [|apply IH].
    destruct (startswith old (c :: s)) eqn:E.
    + apply startswith_spec in E as (r & E). rewrite E.
      rewrite replace_from_hit by assumption. cbn [skipn].
      apply Subseq_app; auto.
      specialize (IH (length old - 1)).
      rewrite replace_from_skip in IH.
      destruct old as [|o old']; [contradiction|].
      injection E as -> ->. cbn [length] in IH.
      rewrite Nat.sub_succ, Nat.sub_0_r, skipn_app, skipn_all, Nat.sub_diag in IH.
      exact IH.
    + rewrite replace_from_miss by exact E. cbn [skipn].
      apply Subseq_keep. apply (IH 0).
Qed.

Lemma replace_from_length old new s :
  old <> [] -> length old <= length new ->
  forall k, length s <= length (replace_from old new k s) + k.
Proof.
  intros Hne Hon.
  induction s as [|c s IH]; intros k; [simpl; lia|].
  destruct k as [|k]; [|simpl; specialize (IH k); lia].
  cbn [replace_from]. destruct (startswith old (c :: s)).
  - rewrite length_app. specialize (IH (length old - 1)).
    destruct old; [contradiction|]. simpl in *. lia.
  - simpl. specialize (IH 0). lia.
Qed.

Lemma replace_nonempty s old new :
  old <> [] -> replace s old new = replace_from old new 0 s.
Proof. unfold replace. destruct old; [contradiction|reflexivity]. Qed.

Lemma intersperse_supseq new s : Subseq s (intersperse new s).
Proof.
  induction s as [|c s IH]; simpl.
  - rewrite <- (app_nil_r new). apply Subseq_prepend. auto.
  - apply Subseq_prepend. auto.
Qed.

Lemma replace_supseq s old new : Subseq old new -> Subseq s (replace s old new).
Proof.
  intros H. destruct (list_eq_dec ascii_dec old []) as [->|Hne].
  - apply intersperse_supseq.
  - rewrite replace_nonempty by assumption.
    apply (replace_from_supseq old new s Hne H 0).
Qed.

Lemma find_from_shift old s : forall pos,
  find_from old (S pos) s = option_map S (find_from old pos s).
Proof.
  induction s as [|c s IH]; intros pos; simpl;
    destruct (startswith old _); auto.
Qed.

Lemma find_from_occurs old a b : forall pos,
  exists i, find_from old pos (a ++ old ++ b) = Some i.
Proof.
  induction a as [|x a IH]; intros pos.
  - simpl app. destruct (old ++ b) eqn:E; simpl;
      rewrite <- E, startswith_app; eauto.
  - simpl. destruct (startswith old _); eauto.
Qed.

Lemma find_from_split old s : forall pos i,
  find_from old pos s = Some i ->
  exists a b, s = a ++ old ++ b /\ i = pos + length a
              /\ find_from old 0 s = Some (length a).
Proof.
  induction s as [|c s IH]; intros pos i H.
  - simpl in *. destruct (startswith old []) eqn:E; [|discriminate].
    injection H as <-. apply startswith_spec in E as (r & E).
    exists [], r. simpl. rewrite <- E. auto.
  - simpl in *. destruct (startswith old (c :: s)) eqn:E.
    + injection H as <-. apply startswith_spec in E as (r & E).
      exists [], r. simpl. rewrite <- E. auto.
    + destruct (IH _ _ H) as (a & b & -> & -> & Hf).
      exists (c :: a), b. simpl. rewrite find_from_shift, Hf.
      repeat split; auto; lia.
Qed.

(** The leftmost occurrence is replaced, what is before it is kept, and the
    replacement goes on in what follows it. *)
Lemma replace_from_leftmost old new b : forall a,
  old <> [] ->
  find (a ++ old ++ b) old = Some (length a) ->
  replace_from old new 0 (a ++ old ++ b)
  = a ++ new ++ replace_from old new 0 b.
Proof.
  unfold find. induction a as [|x a IH]; intros Hne H.
  - simpl. apply replace_from_hit; assumption.
  - simpl app in *. simpl in H.
    destruct (startswith old (x :: a ++ old ++ b)) eqn:E; [discriminate|].
    rewrite find_from_shift in H.
    destruct (find_from old 0 (a ++ old ++ b)) as [i|] eqn:Ei; [|discriminate].
    simpl in H. injection H as ->.
    rewrite replace_from_miss by exact E. f_equal. auto.
Qed.

Lemma replace_from_absent old new s : forall pos,
  find_from old pos s = None -> replace_from old new 0 s = s.
Proof.
  induction s as [|c s IH]; intros pos H; [reflexivity|].
  simpl in H. destruct (startswith old (c :: s)) eqn:E; [discriminate|].
  rewrite (replace_from_miss old new c s E). f_equal. eauto.
Qed.

(** Replacing an occurring text by a longer one makes the buffer longer. *)
Lemma replace_length_lt old new a b :
  old <> [] -> length old < length new ->
  length (a ++ old ++ b) < length (replace (a ++ old ++ b) old new).
Proof.
  intros Hne Hlt. rewrite replace_nonempty by assumption.
  destruct (find_from_occurs old a b 0) as (i & Hi).
  destruct (find_from_split _ _ _ _ Hi) as (a' & b' & E & _ & Hf).
  rewrite E in *. rewrite replace_from_leftmost by assumption.
  pose proof (replace_from_length old new b' Hne ltac:(lia) 0).
  rewrite !length_app. lia.
Qed.

(** ** Lines *)

Lemma split_nl_nonempty s : split_nl s <> [].
Proof.
  destruct s as [|c s]; simpl; [discriminate|].
  destruct (Ascii.eqb c nl); [discriminate|].
  destruct (split_nl s); discriminate.
Qed.

Lemma join_cons sep p q ps : join sep (p :: q :: ps) = p ++ sep ++ join sep (q :: ps).
Proof. reflexivity. Qed.

Lemma join_push sep c ls : ls <> [] -> join sep (push c ls) = c :: join sep ls.
Proof.
  destruct ls as [|l [|l' ls]]; [contradiction| |]; reflexivity.
Qed.

(** Splitting at the line feeds and joining with line feeds gives the text
    back. *)
Lemma join_split_nl s : join [nl] (split_nl s) = s.
Proof.
  induction s as [|c s IH]; [reflexivity|]. cbn [split_nl].
  destruct (Ascii.eqb_spec c nl) as [->|Hc].
  - pose proof (split_nl_nonempty s).
    destruct (split_nl s) as [|l ls] eqn:E; [contradiction|].
    rewrite join_cons. cbn [app]. now rewrite IH.
  - rewrite join_push by apply split_nl_nonempty. now rewrite IH.
Qed.

(** Replacing is splitting the buffer at the occurrences of [old] and joining
    the pieces with [new]: what lies between the occurrences is kept. *)
Lemma replace_from_join old new s :
  old <> [] ->
  forall k, exists parts,
    parts <> [] /\ skipn k s = join old parts
    /\ replace_from old new k s = join new parts.
Proof.
  intros Hne. induction s as [|c s IH]; intros k.
  - exists [[]]. destruct k; repeat split; discriminate.
  - destruct k as [|k]; [|apply IH].
    destruct (startswith old (c :: s)) eqn:E.
    + apply startswith_spec in E as (r & E). rewrite E.
      rewrite replace_from_hit by assumption. cbn [skipn].
      destruct (IH (length old - 1)) as (parts & Hp & Hs & Hr).
      rewrite replace_from_skip in Hr.
      destruct old as [|o old']; [contradiction|].
      injection E as -> ->. cbn [length] in Hs, Hr.
      rewrite Nat.sub_succ, Nat.sub_0_r, skipn_app, skipn_all, Nat.sub_diag in Hs, Hr.
      cbn [skipn app] in Hs, Hr.
      destruct parts as [|q ps]; [contradiction|].
      exists ([] :: q :: ps). rewrite !join_cons, <- Hs, <- Hr.
      repeat split. discriminate.
    + rewrite replace_from_miss by exact E. cbn [skipn].
      destruct (IH 0) as (parts & Hp & Hs & Hr). cbn [skipn] in Hs.
      exists (push c parts). rewrite !join_push by assumption.
      rewrite <- Hs, <- Hr. repeat split.
      destruct parts; discriminate.
Qed.

Lemma lstrip_nil l : lstrip l = [] <-> forallb isspace l = true.
Proof.
  induction l as [|c l IH]; simpl; [tauto|].
  destruct (isspace c); simpl; [exact IH|]. split; discriminate.
Qed.

Lemma lstrip_suffix l : exists a, l = a ++ lstrip l /\ forallb isspace a = true.
Proof.
  induction l as [|c l (a & Ha & Hs)]; simpl.
  - now exists [].
  - destruct (isspace c) eqn:E.
    + exists (c :: a). simpl. rewrite E, Hs. split; [congruence|reflexivity].
    + now exists [].
Qed.

Lemma forallb_rev (f : ascii -> bool) l : forallb f (rev l) = forallb f l.
Proof.
  induction l as [|c l IH]; [reflexivity|]. simpl.
  rewrite forallb_app, IH. simpl. rewrite andb_true_r. apply andb_comm.
Qed.

(** line.strip() is truthy exactly when the line has a character that is not
    white space. *)
Lemma strip_truthy l : truthy (strip l) = negb (forallb isspace l).
Proof.
  unfold strip, rstrip.
  destruct (lstrip_suffix l) as (a & Ha & Hs).
  destruct (forallb isspace l) eqn:E.
  - apply lstrip_nil in E. rewrite E. reflexivity.
  - assert (H1 : forallb isspace (lstrip l) = false).
    { rewrite Ha, forallb_app, Hs in E. exact E. }
    assert (H2 : lstrip (rev (lstrip l)) <> []).
    { intros H. apply lstrip_nil in H. rewrite forallb_rev in H. congruence. }
    destruct (lstrip (rev (lstrip l))) as [|x r] eqn:Er; [contradiction|].
    simpl. destruct (rev r ++ [x]) eqn:E2; [|reflexivity].
    now apply app_eq_nil in E2 as [_ ?].
Qed.

Lemma comment_line_supseq indent line : Subseq line (comment_line indent line).
Proof.
  unfold comment_line. destruct (truthy (strip line)).
  - rewrite app_assoc. apply Subseq_prepend, Subseq_refl.
  - apply Subseq_refl.
Qed.

Lemma join_map_supseq sep (f : text -> text) ls :
  (forall l, Subseq l (f l)) -> Subseq (join sep ls) (join sep (map f ls)).
Proof.
  intros Hf. induction ls as [|l ls IH]; [constructor|].
  destruct ls as [|l' ls]; [apply Hf|].
  cbn [map] in *. rewrite !join_cons.
  apply Subseq_app; [apply Hf|]. apply Subseq_app; [apply Subseq_refl|exact IH].
Qed.

(** Commenting only inserts characters. *)
Lemma comment_supseq original indent : Subseq original (comment original indent).
Proof.
  unfold comment. rewrite <- (join_split_nl original) at 1.
  apply join_map_supseq. intros l. apply comment_line_supseq.
Qed.

Lemma join_map_length_lt sep (f : text -> text) ls l0 :
  (forall l, Subseq l (f l)) ->
  In l0 ls -> length l0 < length (f l0) ->
  length (join sep ls) < length (join sep (map f ls)).
Proof.
  intros Hf Hin Hlt. induction ls as [|l ls IH]; [contradiction|].
  destruct ls as [|l' ls].
  - destruct Hin as [->|[]]. exact Hlt.
  - cbn [map] in *. rewrite !join_cons, !length_app.
    pose proof (Subseq_length _ _ (Hf l)).
    pose proof (Subseq_length _ _ (join_map_supseq sep f (l' :: ls) Hf)).
    cbn [map] in *.
    destruct Hin as [->|Hin]; [lia|]. specialize (IH Hin). lia.
Qed.

Lemma nonspace_line s c :
  In c s -> isspace c = false ->
  exists l, In l (split_nl s) /\ forallb isspace l = false.
Proof.
  intros Hin Hc. induction s as [|x s IH]; [contradiction|]. simpl.
  destruct (Ascii.eqb_spec x nl) as [->|Hx].
  - destruct Hin as [<-|Hin]; [discriminate|].
    destruct (IH Hin) as (l & Hl & Hs). exists l. simpl. auto.
  - pose proof (split_nl_nonempty s).
    destruct (split_nl s) as [|l0 ls]; [contradiction|]. simpl.
    destruct Hin as [->|Hin].
    + exists (c :: l0). simpl. rewrite Hc. auto.
    + destruct (IH Hin) as (l & [<-|Hl] & Hs).
      * exists (x :: l0). simpl. rewrite Hs, andb_false_r. auto.
      * exists l. auto.
Qed.

(** A text that is not all white space gets longer when commented. *)
Lemma comment_length_lt original indent c :
  In c original -> isspace c = false ->
  length original < length (comment original indent).
Proof.
  intros Hin Hc. destruct (nonspace_line _ _ Hin Hc) as (l & Hl & Hs).
  unfold comment. rewrite <- (join_split_nl original) at 1.
  apply join_map_length_lt with (l0 := l); auto using comment_line_supseq.
  unfold comment_line. rewrite strip_truthy, Hs. simpl.
  rewrite !length_app. simpl. lia.
Qed.

(** * The blocks the script comments out *)

Lemma pattern_text field cs :
  Forall2 item_ok (pattern field) cs -> relation_shape field (hd [] cs) (concat cs).
Proof.
  intros H.
  destruct (pattern_chunks _ _ H)
    as (ws & ident & arg1 & w1 & w2 & w3 & q & tail & -> & Hrest).
  exists ident, arg1, w1, w2, w3, q, tail. split; [|exact Hrest].
  repeat (rewrite concat_app || rewrite concat_singles).
  cbn [app concat hd]. rewrite !app_nil_r. repeat rewrite <- app_assoc.
  reflexivity.
Qed.

Lemma match_shape field content m :
  In m (finditer (pattern field) content) ->
  relation_shape field (group1 m) (group0 m).
Proof.
  intros H. destruct (finditer_sound _ _ _ H) as (a & b & _ & _ & _ & HF).
  apply pattern_text, HF.
Qed.

(** A matched block has a character that is not white space. *)
Lemma shape_colon field indent block :
  relation_shape field indent block -> In ":"%char block.
Proof.
  intros (ident & arg1 & w1 & w2 & w3 & q & tail & -> & _).
  apply in_or_app; right. apply in_or_app; right. left. reflexivity.
Qed.

Lemma shape_nonempty field indent block :
  relation_shape field indent block -> block <> [].
Proof. intros H%shape_colon ->. contradiction. Qed.

(** A run of characters of one class, followed by a character that is not of
    the class, can be read off a text in one way only. *)
Lemma run_unique (P : ascii -> bool) l1 : forall l2 x y r1 r2,
  forallb P l1 = true -> forallb P l2 = true -> P x = false -> P y = false ->
  l1 ++ x :: r1 = l2 ++ y :: r2 -> l1 = l2 /\ x = y /\ r1 = r2.
Proof.
  induction l1 as [|a l1 IH]; intros [|b l2] x y r1 r2 H1 H2 Hx Hy E;
    simpl in *.
  - injection E as -> ->. auto.
  - injection E as -> _. apply andb_true_iff in H2 as [H2 _]. congruence.
  - injection E as -> _. apply andb_true_iff in H1 as [H1 _]. congruence.
  - injection E as -> E.
    apply andb_true_iff in H1 as [_ H1]. apply andb_true_iff in H2 as [_ H2].
    destruct (IH _ _ _ _ _ H1 H2 Hx Hy E) as (-> & -> & ->). auto.
Qed.

Lemma word_not_space c : isword c = true -> isspace c = false.
Proof.
  destruct c as [[] [] [] [] [] [] [] []]; vm_compute; congruence.
Qed.


(** ** One run never shortens the buffer, and never drops a character *)

Lemma apply_match_supseq content m : Subseq content (apply_match content m).
Proof. apply replace_supseq, comment_supseq. Qed.

Lemma fold_apply_supseq ms : forall content,
  Subseq content (fold_left apply_match ms content).
Proof.
  induction ms as [|m ms IH]; intros content; simpl.
  - apply Subseq_refl.
  - eapply Subseq_trans; [apply IH|apply apply_match_supseq].
Qed.

Lemma process_field_supseq content field :
  Subseq content (process_field content field).
Proof. apply fold_apply_supseq. Qed.

Lemma rewrite_supseq fields : forall content,
  Subseq content (rewrite fields content).
Proof.
  induction fields as [|f fields IH]; intros content; simpl.
  - apply Subseq_refl.
  - eapply Subseq_trans; [apply IH|apply process_field_supseq].
Qed.

(** A field whose pattern matches somewhere makes the buffer longer. *)
Lemma process_field_length_lt content field :
  finditer (pattern field) content <> [] ->
  length content < length (process_field content field).
Proof.
  unfold process_field.
  destruct (finditer (pattern field) content) as [|m ms] eqn:E; [congruence|].
  intros _. simpl.
  assert (Hm : In m (finditer (pattern field) content)) by (rewrite E; now left).
  destruct (finditer_sound _ _ _ Hm) as (a & b & Hs & _).
  pose proof (match_shape _ _ _ Hm) as Hshape.
  pose proof (Subseq_length _ _ (fold_apply_supseq ms (apply_match content m))).
  enough (length content < length (apply_match content m)) by lia.
  unfold apply_match. rewrite Hs at 1 2.
  apply replace_length_lt.
  - eapply shape_nonempty, Hshape.
  - eapply comment_length_lt; [eapply shape_colon, Hshape|reflexivity].
Qed.

Lemma process_field_no_match content field :
  finditer (pattern field) content = [] -> process_field content field = content.
Proof. unfold process_field. intros ->. reflexivity. Qed.

(** The buffers a run leaves as they are: those in which no pattern
    matches. *)
Lemma rewrite_fixed_iff fields content :
  rewrite fields content = content
  <-> forall f, In f fields -> finditer (pattern f) content = [].
Proof.
  split.
  - induction fields as [|f fields IH]; intros H g Hg; [contradiction|].
    simpl in H.
    destruct (finditer (pattern f) content) as [|m ms] eqn:E.
    + rewrite process_field_no_match in H by exact E.
      destruct Hg as [<-|Hg]; auto.
    + exfalso.
      assert (Hlt : length content < length (process_field content f))
        by (apply process_field_length_lt; congruence).
      pose proof (Subseq_length _ _
                    (rewrite_supseq fields (process_field content f))).
      rewrite H in *. lia.
  - induction fields as [|f fields IH]; intros H; [reflexivity|].
    simpl. rewrite process_field_no_match by (apply H; now left).
    apply IH. intros g Hg. apply H. now right.
Qed.

(** * The field matcher of the specification and the pattern *)

Lemma argument_list_after u v :
  exists x, spec_argument_list (u ++ "("%char :: v) = x ++ v.
Proof.
  induction u as [|c u (x & IH)]; simpl.
  - exists []. reflexivity.
  - destruct (Ascii.eqb c "(").
    + exists (u ++ ["("%char]). now rewrite <- app_assoc.
    + exists x. exact IH.
Qed.

Lemma references_nonempty s : spec_references s <> [].
Proof.
  destruct s as [|c s]; simpl; [discriminate|].
  destruct (spec_isrefchar c); [|discriminate].
  destruct (spec_references s); discriminate.
Qed.

(** A run of reference characters is glued to the reference that follows. *)
Lemma references_run g s :
  forallb spec_isrefchar g = true ->
  exists t ts, spec_references s = t :: ts /\ spec_references (g ++ s) = (g ++ t) :: ts.
Proof.
  intros Hg. induction g as [|c g IH]; simpl in *.
  - pose proof (references_nonempty s).
    destruct (spec_references s) as [|t ts]; [contradiction|]. eauto.
  - apply andb_true_iff in Hg as [Hc Hg]. rewrite Hc.
    destruct (IH Hg) as (t & ts & E1 & E2). rewrite E2. simpl. eauto.
Qed.

(** A run of reference characters that is followed by a closing bracket ends
    a reference. *)
Lemma references_contains g y : forall x,
  forallb spec_isrefchar g = true ->
  exists t0, In (t0 ++ g) (spec_references (x ++ g ++ "]"%char :: y)).
Proof.
  intros x Hg. induction x as [|c x (t0 & IH)].
  - destruct (references_run g ("]"%char :: y) Hg) as (t & ts & E1 & E2).
    change (spec_references ("]"%char :: y)) with ([] :: spec_references y) in E1.
    injection E1 as <- <-. exists []. simpl app. rewrite E2, app_nil_r.
    now left.
  - simpl. destruct (spec_isrefchar c).
    + destruct (spec_references (x ++ g ++ "]"%char :: y)) as [|t ts];
        [contradiction|].
      destruct IH as [->|IH].
      * exists (c :: t0). now left.
      * exists t0. now right.
    + exists t0. now right.
Qed.

Lemma unqualified_run f : forall acc,
  ~ In "."%char f ->
  fold_left (fun acc c => if Ascii.eqb c "." then [] else acc ++ [c]) f acc
  = acc ++ f.
Proof.
  induction f as [|c f IH]; intros acc Hf; simpl.
  - now rewrite app_nil_r.
  - destruct (Ascii.eqb_spec c ".") as [->|Hc]; [exfalso; apply Hf; now left|].
    rewrite IH by (intros H; apply Hf; now right).
    now rewrite <- app_assoc.
Qed.

Lemma unqualified_spec t0 f :
  ~ In "."%char f -> spec_unqualified (t0 ++ "."%char :: f) = f.
Proof.
  intros Hf. unfold spec_unqualified. rewrite fold_left_app. simpl.
  now rewrite unqualified_run.
Qed.

Lemma word_not_dot f : forallb isword f = true -> ~ In "."%char f.
Proof.
  induction f as [|c f IH]; simpl; [tauto|].
  intros H; apply andb_true_iff in H as [Hc Hf].
  intros [->|Hin]; [discriminate|now apply IH].
Qed.

Lemma word_refchars f : forallb isword f = true -> forallb spec_isrefchar f = true.
Proof.
  induction f as [|c f IH]; simpl; [reflexivity|].
  intros H; apply andb_true_iff in H as [Hc Hf].
  unfold spec_isrefchar at 1. rewrite Hc, IH by assumption. reflexivity.
Qed.

Lemma text_eqb_refl a : text_eqb a a = true.
Proof. unfold text_eqb. destruct (list_eq_dec ascii_dec a a); congruence. Qed.

(** In a matched block the name of the field, with the dot before it, is
    found after a parenthesis and right before a closing bracket. *)
Lemma shape_reference field indent block :
  relation_shape field indent block ->
  exists u v y, block = u ++ "("%char :: v ++ ("."%char :: field) ++ "]"%char :: y.
Proof.
  intros (ident & arg1 & w1 & w2 & w3 & q & tail & -> & _).
  exists (indent ++ ident ++ T ": one"),
         (arg1 ++ T "," ++ w1 ++ T "{" ++ w2 ++ T "fields:" ++ w3 ++ T "[" ++ q),
         (T "," ++ tail ++ T "})").
  repeat rewrite <- app_assoc. reflexivity.
Qed.

(** A text that holds a matched block references the field of the block, in
    the sense of the specification. *)
Lemma shape_is_referenced field indent g a b :
  forallb isword field = true ->
  relation_shape field indent g ->
  exists r, In r (spec_references (spec_argument_list (a ++ g ++ b)))
            /\ spec_unqualified r = field.
Proof.
  intros Hw Hshape.
  destruct (shape_reference _ _ _ Hshape) as (u & v & y & ->).
  assert (Hb : a ++ (u ++ "("%char :: v ++ ("."%char :: field) ++ "]"%char :: y)
               ++ b
               = (a ++ u) ++ "("%char :: v ++ ("."%char :: field)
                 ++ "]"%char :: (y ++ b)).
  { repeat (rewrite <- app_assoc || rewrite <- app_comm_cons). reflexivity. }
  rewrite Hb.
  destruct (argument_list_after (a ++ u)
              (v ++ ("."%char :: field) ++ "]"%char :: (y ++ b))) as (x & Hx).
  rewrite Hx, app_assoc.
  destruct (references_contains ("."%char :: field) (y ++ b) (x ++ v)) as (t0 & Ht).
  { simpl. now rewrite word_refchars. }
  exists (t0 ++ "."%char :: field). split; [exact Ht|].
  apply unqualified_spec, word_not_dot, Hw.
Qed.

Lemma spec_matches_intro block targetFields f r :
  In f targetFields ->
  In r (spec_references (spec_argument_list block)) -> spec_unqualified r = f ->
  spec_matches block targetFields = true.
Proof.
  intros Hf Hr Hu. unfold spec_matches.
  apply existsb_exists. exists r. split; [exact Hr|].
  apply existsb_exists. exists f. split; [exact Hf|].
  rewrite Hu. apply text_eqb_refl.
Qed.

(** ** Lines of a commented block *)

Lemma split_nl_single l : ~ In nl l -> split_nl l = [l].
Proof.
  induction l as [|c l IH]; intros H; [reflexivity|]. cbn [split_nl].
  destruct (Ascii.eqb_spec c nl) as [->|Hc]; [exfalso; apply H; now left|].
  rewrite IH by (intros Hin; apply H; now right). reflexivity.
Qed.

Lemma split_nl_app l s : ~ In nl l -> split_nl (l ++ nl :: s) = l :: split_nl s.
Proof.
  induction l as [|c l IH]; intros H; cbn [app split_nl].
  - now rewrite Ascii.eqb_refl.
  - destruct (Ascii.eqb_spec c nl) as [->|Hc]; [exfalso; apply H; now left|].
    rewrite IH by (intros Hin; apply H; now right). reflexivity.
Qed.

Lemma split_nl_join ls :
  ls <> [] -> Forall (fun l => ~ In nl l) ls -> split_nl (join [nl] ls) = ls.
Proof.
  induction ls as [|l ls IH]; intros Hne H; [contradiction|].
  inversion H as [|? ? Hl Hls]; subst.
  destruct ls as [|l' ls].
  - apply split_nl_single, Hl.
  - rewrite join_cons. cbn [app]. rewrite split_nl_app by exact Hl.
    f_equal. apply IH; [discriminate|exact Hls].
Qed.

Lemma split_nl_lines s : Forall (fun l => ~ In nl l) (split_nl s).
Proof.
  induction s as [|c s IH]; cbn [split_nl].
  - constructor; [intros []|constructor].
  - destruct (Ascii.eqb_spec c nl) as [->|Hc].
    + constructor; [intros []|exact IH].
    + destruct (split_nl s) as [|l ls]; simpl.
      * constructor; [|constructor]. intros [?|[]]. congruence.
      * inversion IH; subst. constructor; [|assumption].
        intros [?|?]; [congruence|contradiction].
Qed.

Lemma comment_line_no_nl indent line :
  ~ In nl indent -> ~ In nl line -> ~ In nl (comment_line indent line).
Proof.
  intros Hi Hl. unfold comment_line. destruct (truthy (strip line)); auto.
  intros H. apply in_app_or in H as [H|H]; auto.
  apply in_app_or in H as [H|H]; auto.
  simpl in H. intuition discriminate.
Qed.

(** ** The matches a run goes through *)


Lemma run_matches_shape fields m : forall content,
  In m (run_matches fields content) ->
  exists f, In f fields /\ relation_shape f (group1 m) (group0 m).
Proof.
  induction fields as [|f fields IH]; intros content H; [contradiction|].
  simpl in H. apply in_app_or in H as [H|H].
  - exists f. split; [now left|]. eapply match_shape, H.
  - destruct (IH _ H) as (g & Hg & Hs). exists g. split; [now right|exact Hs].
Qed.

(** * The claims *)

(** C1 (counterexample).  In [nested_block] the relation starts at offset 1
    and its delimiters balance at offset 66, the end of the text; the span the
    pattern selects ends at offset 62, after the "})" of the nested call. *)
Lemma span_ends_inside_nested_literal :
  map (fun m => (m_start m, m_end m)) (finditer (pattern userId) nested_block)
  = [(1, 62)]
  /\ spec_scan nested_block 1 = Some 66.
Proof. split; vm_compute; reflexivity. Qed.

(** C1 (amended).  The span selected for a relation declaration ends right
    after the first "})" that follows the "]," closing the [fields:] array.
    The matched text, which is the slice of the buffer at the span, reads:
    white space, an identifier, [: one(], a first argument without comma,
    [,], [{], [fields:], "[", a text [q] without "]", [.field], "],", a tail
    and "})".  As [q] holds no "]", the "]," is the first closing bracket
    after the "[" that opens the [fields:] array; and no "})" begins inside
    the tail.  Delimiter depth plays no part. *)
Theorem span_ends_at_first_closing_pair field content m :
  In m (finditer (pattern field) content) ->
  exists before after ident arg1 w1 w2 w3 q tail,
    content = before ++ group0 m ++ after
    /\ m_start m = length before
    /\ m_end m = length before + length (group0 m)
    /\ group0 m
       = group1 m ++ ident ++ T ": one(" ++ arg1 ++ T "," ++ w1 ++ T "{" ++ w2
         ++ T "fields:" ++ w3 ++ T "[" ++ q ++ T "." ++ field ++ T "],"
         ++ tail ++ T "})"
    /\ (group1 m <> [] /\ forallb isspace (group1 m) = true)
    /\ (ident <> [] /\ forallb isword ident = true)
    /\ (arg1 <> [] /\ ~ In ","%char arg1)
    /\ forallb isspace w1 = true /\ forallb isspace w2 = true
    /\ forallb isspace w3 = true
    /\ ~ In "]"%char q
    /\ forall t1 y t2, tail = t1 ++ y :: t2 ->
                       startswith (T "})") (y :: t2 ++ T "})") = false.
Proof.
  intros H. destruct (finditer_sound _ _ _ H) as (a & b & Hs & Hst & Hm & HF).
  destruct (pattern_tail_minimal _ _ _ Hm) as (c1 & tail & Hc & Hmin).
  destruct (pattern_chunks _ _ HF)
    as (ws & ident & arg1 & w1 & w2 & w3 & q & tail' & Hcs
        & Hws & Hid & Ha & Hw1 & Hw2 & Hw3 & Hq).
  assert (tail = tail') as <-.
  { rewrite Hc in Hcs. repeat rewrite app_assoc in Hcs.
    now apply app_inj_last3 in Hcs as [_ ?]. }
  assert (G1 : group1 m = ws) by (unfold group1; now rewrite Hcs).
  assert (G0 : group0 m
               = ws ++ ident ++ T ": one(" ++ arg1 ++ T "," ++ w1 ++ T "{" ++ w2
                 ++ T "fields:" ++ w3 ++ T "[" ++ q ++ T "." ++ field ++ T "],"
                 ++ tail ++ T "})").
  { unfold group0. rewrite Hcs.
    repeat (rewrite concat_app || rewrite concat_singles).
    cbn [app concat]. rewrite !app_nil_r. repeat rewrite <- app_assoc.
    reflexivity. }
  exists a, b, ident, arg1, w1, w2, w3, q, tail. rewrite G1.
  split; [exact Hs|]. split; [exact Hst|].
  split; [unfold m_end; lia|]. split; [exact G0|].
  split; [exact Hws|]. split; [exact Hid|]. split; [exact Ha|].
  split; [exact Hw1|]. split; [exact Hw2|]. split; [exact Hw3|].
  split; [exact Hq|exact Hmin].
Qed.

Lemma span_ends_at_first_closing_pair_witness :
  In (first_match userId nested_block) (finditer (pattern userId) nested_block)
  /\ exists before after ident arg1 w1 w2 w3 q tail,
       nested_block
       = before ++ group0 (first_match userId nested_block) ++ after
       /\ m_start (first_match userId nested_block) = length before
       /\ m_end (first_match userId nested_block)
          = length before + length (group0 (first_match userId nested_block))
       /\ group0 (first_match userId nested_block)
          = group1 (first_match userId nested_block)
            ++ ident ++ T ": one(" ++ arg1 ++ T "," ++ w1 ++ T "{" ++ w2
            ++ T "fields:" ++ w3 ++ T "[" ++ q ++ T "." ++ userId ++ T "],"
            ++ tail ++ T "})"
       /\ (group1 (first_match userId nested_block) <> []
           /\ forallb isspace (group1 (first_match userId nested_block)) = true)
       /\ (ident <> [] /\ forallb isword ident = true)
       /\ (arg1 <> [] /\ ~ In ","%char arg1)
       /\ forallb isspace w1 = true /\ forallb isspace w2 = true
       /\ forallb isspace w3 = true
       /\ ~ In "]"%char q
       /\ forall t1 y t2, tail = t1 ++ y :: t2 ->
                          startswith (T "})") (y :: t2 ++ T "})") = false.
Proof.
  split.
  - vm_compute. left. reflexivity.
  - apply (span_ends_at_first_closing_pair userId nested_block).
    vm_compute. left. reflexivity.
Defined.

(** C2 (counterexample).  Scenario A of the specification: the second run
    finds the relation again behind the comment marker and comments it a
    second time. *)
Lemma second_run_comments_again :
  rewrite nullable_fields (rewrite nullable_fields scenario_a)
  <> rewrite nullable_fields scenario_a.
Proof. vm_compute. discriminate. Qed.

(** C2 (amended).  Running twice gives the output of running once exactly
    when no pattern of a target field matches in the output of the first run;
    a commented block is not recognised as disabled, and is commented again
    as long as its pattern still matches behind the marker. *)
Theorem second_run_fixed_iff_nothing_matches fields content :
  rewrite fields (rewrite fields content) = rewrite fields content
  <-> forall f, In f fields ->
                finditer (pattern f) (rewrite fields content) = [].
Proof. apply rewrite_fixed_iff. Qed.

(** C3 (counterexample).  [not_last_block] references [userId] in its
    [fields:] array, but not as the last element: the field matcher of the
    specification says true, the pattern does not match. *)
Lemma reference_not_last_is_not_matched :
  spec_matches not_last_block [userId] = true
  /\ field_matches not_last_block [userId] = false.
Proof. split; vm_compute; reflexivity. Qed.

(** C3 (amended).  For target names made of identifier characters, the field
    match test returns true only if the argument list of the block contains a
    field reference that, once its qualifying prefix is stripped, is exactly
    string-equal to a target name (so a name that is only a proper substring
    of a longer identifier does not match).  The converse does not hold: the
    reference must be the last element of the [fields:] array. *)
Theorem field_match_implies_exact_reference block targetFields :
  Forall (fun f => forallb isword f = true) targetFields ->
  field_matches block targetFields = true ->
  spec_matches block targetFields = true.
Proof.
  intros Hw H. unfold field_matches in H.
  apply existsb_exists in H as (f & Hf & Hm).
  destruct (finditer (pattern f) block) as [|m ms] eqn:E; [discriminate|].
  assert (Hin : In m (finditer (pattern f) block)) by (rewrite E; now left).
  destruct (finditer_sound _ _ _ Hin) as (a & b & Hs & _).
  destruct (shape_is_referenced f (group1 m) (group0 m) a b) as (r & Hr & Hu).
  - rewrite Forall_forall in Hw. apply Hw, Hf.
  - eapply match_shape, Hin.
  - rewrite <- Hs in Hr. eapply spec_matches_intro; eauto.
Qed.

Lemma field_match_implies_exact_reference_witness :
  Forall (fun f => forallb isword f = true) nullable_fields
  /\ field_matches scenario_a nullable_fields = true
  /\ spec_matches scenario_a nullable_fields = true.
Proof.
  assert (Hw : Forall (fun f => forallb isword f = true) nullable_fields)
    by (repeat constructor).
  assert (Hm : field_matches scenario_a nullable_fields = true)
    by (vm_compute; reflexivity).
  split; [exact Hw|]. split; [exact Hm|].
  apply (field_match_implies_exact_reference scenario_a nullable_fields Hw Hm).
Defined.

(** C4 (counterexample).  [not_last_block] references the target field
    [userId], and the run leaves it as it is. *)
Lemma referencing_block_left_untouched :
  spec_matches not_last_block nullable_fields = true
  /\ rewrite nullable_fields not_last_block = not_last_block.
Proof. split; vm_compute; reflexivity. Qed.

(** C4 (amended).  For target names made of identifier characters: a block is
    commented only if it references a field of the target set (every text
    replaced by the run does); a replacement changes a buffer only inside the
    occurrences of the text of its block, the pieces between them are kept as
    they are; the run only inserts characters, so every byte of the input is
    found again in the output, in order; and when no pattern of a target
    field matches in the input, the output is byte-identical to the input. *)
Theorem rewrite_only_comments_referencing_blocks fields content :
  Forall (fun f => forallb isword f = true) fields ->
  (forall m, In m (run_matches fields content) ->
             spec_matches (group0 m) fields = true
             /\ forall buffer, exists parts,
                  buffer = join (group0 m) parts
                  /\ apply_match buffer m
                     = join (comment (group0 m) (group1 m)) parts)
  /\ Subseq content (rewrite fields content)
  /\ ((forall f, In f fields -> finditer (pattern f) content = []) ->
      rewrite fields content = content).
Proof.
  intros Hw. split; [|split].
  - intros m Hm. destruct (run_matches_shape _ _ _ Hm) as (f & Hf & Hs). split.
    + destruct (shape_is_referenced f (group1 m) (group0 m) [] [])
        as (r & Hr & Hu); auto.
      * rewrite Forall_forall in Hw. apply Hw, Hf.
      * simpl in Hr. rewrite app_nil_r in Hr. eapply spec_matches_intro; eauto.
    + intros buffer. pose proof (shape_nonempty _ _ _ Hs) as Hne.
      destruct (replace_from_join (group0 m) (comment (group0 m) (group1 m))
                  buffer Hne 0) as (parts & _ & Hb & Hr).
      exists parts. unfold apply_match. rewrite replace_nonempty by exact Hne.
      split; [exact Hb|exact Hr].
  - apply rewrite_supseq.
  - apply rewrite_fixed_iff.
Qed.

Lemma rewrite_only_comments_referencing_blocks_witness :
  Forall (fun f => forallb isword f = true) nullable_fields
  /\ Subseq typical_schema (rewrite nullable_fields typical_schema)
  /\ rewrite nullable_fields plain_text = plain_text.
Proof.
  assert (Hw : Forall (fun f => forallb isword f = true) nullable_fields)
    by (repeat constructor).
  split; [exact Hw|]. split.
  - apply (rewrite_only_comments_referencing_blocks nullable_fields
             typical_schema Hw).
  - apply (rewrite_only_comments_referencing_blocks nullable_fields
             plain_text Hw).
    intros f Hf.
    repeat (destruct Hf as [<-|Hf]; [vm_compute; reflexivity|]).
    contradiction.
Defined.

(** C5 (the script on a usual input).  The relation of [typical_schema] is
    matched with the line feed that precedes it: the block has 5 lines, the
    commented text has 9. *)
Lemma commented_block_has_more_lines :
  map (fun m => (length (split_nl (group0 m)),
                 length (split_nl (comment (group0 m) (group1 m)))))
      (finditer (pattern userId) typical_schema)
  = [(5, 9)].
Proof. vm_compute. reflexivity. Qed.

(** C6.  Commenting is line-wise: the commented text is the lines of the
    block, each one mapped and joined again with line feeds; a blank line is
    passed through unchanged; a non-blank line that does not start with the
    comment marker is prefixed with the indent and the marker.  When the
    indent has no line feed, the mapped lines are the physical lines of the
    commented text. *)
Theorem comment_is_linewise original indent :
  exists outs,
    comment original indent = join [nl] outs
    /\ Forall2 (fun line out =>
                  (strip line = [] -> out = line)
                  /\ (strip line <> [] ->
                      startswith (T "//") (strip line) = false ->
                      out = indent ++ T "// " ++ line))
               (split_nl original) outs
    /\ (~ In nl indent -> split_nl (comment original indent) = outs).
Proof.
  exists (map (comment_line indent) (split_nl original)).
  split; [reflexivity|]. split.
  - induction (split_nl original) as [|l ls IH]; simpl; constructor; auto.
    unfold comment_line. destruct (strip l); simpl; split; congruence.
  - intros Hi. unfold comment. apply split_nl_join.
    + pose proof (split_nl_nonempty original).
      destruct (split_nl original); [contradiction|discriminate].
    + apply Forall_forall. intros out Hout.
      apply in_map_iff in Hout as (l & <- & Hl).
      apply comment_line_no_nl; [exact Hi|].
      pose proof (split_nl_lines original) as H.
      rewrite Forall_forall in H. apply H, Hl.
Qed.

(** C7 (counterexample).  The device takes 40 characters and then fails: the
    run ends in an exception, and the file no longer holds its original
    content but the first 40 characters of the new one. *)
Lemma interrupted_write_loses_the_original :
  fst (main failing_device) = None
  /\ schema_ts (snd (main failing_device))
     = Some (T "export const postsRelations = relations(")
  /\ schema_ts (snd (main failing_device)) <> schema_ts failing_device.
Proof.
  split; [|split].
  - vm_compute. reflexivity.
  - vm_compute. reflexivity.
  - vm_compute. discriminate.
Qed.

(** C7 (amended).  The new text is computed in full before the file is
    opened for writing; opening it empties it.  If the write then fails after
    [n] characters, the run ends in an exception and the file holds the first
    [n] characters of the new text, not its original content. *)
Theorem failed_write_leaves_a_prefix content n :
  n < length (rewrite nullable_fields content) ->
  main (before_run (Some content) true (Some n))
  = (None,
     {| schema_ts := Some (firstn n (rewrite nullable_fields content));
        writable := true;
        capacity := Some n;
        stdout := [];
        log := [OpenRead; Read; OpenWrite;
                Write (firstn n (rewrite nullable_fields content))] |}).
Proof.
  intros Hn. unfold main, bind, read_schema, open_write, write_schema, before_run.
  cbn [schema_ts writable capacity stdout log record set_file app].
  rewrite length_firstn, Nat.min_l by lia.
  destruct (Nat.ltb_spec n (length (rewrite nullable_fields content))); [|lia].
  reflexivity.
Qed.

Lemma failed_write_leaves_a_prefix_witness :
  40 < length (rewrite nullable_fields typical_schema)
  /\ schema_ts (snd (main (before_run (Some typical_schema) true (Some 40))))
     = Some (firstn 40 (rewrite nullable_fields typical_schema)).
Proof.
  assert (H : 40 < length (rewrite nullable_fields typical_schema))
    by (vm_compute; lia).
  split; [exact H|].
  rewrite (failed_write_leaves_a_prefix typical_schema 40 H). reflexivity.
Defined.




(** C9 (counterexample).  A file that can be read but not opened for
    writing, in which no pattern matches: the run reads it, the open with
    mode ['w'] raises, and the file is neither emptied nor written. *)
Lemma unwritable_file_is_left_untouched :
  run_matches nullable_fields plain_text = []
  /\ main (before_run (Some plain_text) false None)
     = (None,
        {| schema_ts := Some plain_text;
           writable := false;
           capacity := None;
           stdout := [];
           log := [OpenRead; Read; OpenWriteRefused] |}).
Proof.
  split; vm_compute; reflexivity.
Qed.

(** C9 (amended).  Whenever the file can be read, the script goes on to open
    it for writing, whatever the buffer is.  If that open is refused, the run
    ends in an exception and the file is left as it was.  If it succeeds, the
    file is emptied and the buffer is written, as far as the device takes it:
    with a device that does not fail, the file ends up holding the rewritten
    text and the message is printed, also when no pattern matched and the
    buffer is the text that was read. *)
Theorem readable_run_writes_back_unless_open_fails content :
  (forall cap,
     main (before_run (Some content) false cap)
     = (None,
        {| schema_ts := Some content;
           writable := false;
           capacity := cap;
           stdout := [];
           log := [OpenRead; Read; OpenWriteRefused] |}))
  /\ (forall cap,
        firstn 4 (log (snd (main (before_run (Some content) true cap))))
        = [OpenRead; Read; OpenWrite;
           Write (match cap with
                  | Some n => firstn n (rewrite nullable_fields content)
                  | None => rewrite nullable_fields content
                  end)])
  /\ main (before_run (Some content) true None)
     = (Some tt,
        {| schema_ts := Some (rewrite nullable_fields content);
           writable := true;
           capacity := None;
           stdout := [done_message];
           log := [OpenRead; Read; OpenWrite;
                   Write (rewrite nullable_fields content);
                   Print done_message] |})
  /\ ((forall f, In f nullable_fields -> finditer (pattern f) content = []) ->
      log (snd (main (before_run (Some content) true None)))
      = [OpenRead; Read; OpenWrite; Write content; Print done_message]).
Proof.
  assert (E : main (before_run (Some content) true None)
              = (Some tt,
                 {| schema_ts := Some (rewrite nullable_fields content);
                    writable := true;
                    capacity := None;
                    stdout := [done_message];
                    log := [OpenRead; Read; OpenWrite;
                            Write (rewrite nullable_fields content);
                            Print done_message] |})).
  { unfold main, bind, read_schema, open_write, write_schema, print, before_run.
    cbn [schema_ts writable capacity stdout log record set_file app].
    rewrite Nat.ltb_irrefl. reflexivity. }
  split; [|split; [|split; [exact E|]]].
  - intros cap. reflexivity.
  - intros cap.
    unfold main, bind, read_schema, open_write, write_schema, print, before_run.
    cbn [schema_ts writable capacity stdout log record set_file app].
    destruct (_ <? _); reflexivity.
  - intros H. rewrite E. cbn [snd log].
    apply rewrite_fixed_iff in H. rewrite H. reflexivity.
Qed.

Lemma readable_run_writes_back_unless_open_fails_witness :
  log (snd (main (before_run (Some plain_text) true None)))
  = [OpenRead; Read; OpenWrite; Write plain_text; Print done_message].
Proof.
  apply (readable_run_writes_back_unless_open_fails plain_text).
  intros f Hf.
  repeat (destruct Hf as [<-|Hf]; [vm_compute; reflexivity|]).
  contradiction.
Defined.

(** C10.  A replacement is a substitution in the whole buffer: wherever the
    text of a matched block occurs in a buffer, at the offset of the match or
    anywhere else, the leftmost occurrence is replaced by the commented form
    and the substitution goes on in what follows it, so every further
    occurrence is replaced as well; only a buffer in which the text does not
    occur is left as it is. *)
Theorem replacement_is_buffer_wide field content m a b :
  In m (finditer (pattern field) content) ->
  find (a ++ group0 m ++ b) (group0 m) = Some (length a) ->
  apply_match (a ++ group0 m ++ b) m
  = a ++ comment (group0 m) (group1 m) ++ apply_match b m
  /\ (find b (group0 m) = None -> apply_match b m = b).
Proof.
  intros Hm Hf.
  assert (Hne : group0 m <> []) by (eapply shape_nonempty, match_shape, Hm).
  unfold apply_match. rewrite !replace_nonempty by exact Hne. split.
  - apply replace_from_leftmost; assumption.
  - intros Hb. eapply replace_from_absent, Hb.
Qed.

(** In [same_block_twice] the first match is at offset 0 and the second
    occurrence of its text at offset 36, inside the second match, which
    starts at offset 35; the replacement for the first match comments
    both. *)
Lemma replacement_is_buffer_wide_witness :
  In twice_match (finditer (pattern userId) same_block_twice)
  /\ find ([] ++ group0 twice_match ++ twice_rest) (group0 twice_match) = Some 0
  /\ apply_match same_block_twice twice_match
     = comment (group0 twice_match) (group1 twice_match)
       ++ apply_match twice_rest twice_match
  /\ apply_match twice_rest twice_match
     = nl :: T " //  a: one(b, { fields: [c.userId], })".
Proof.
  assert (Hm : In twice_match (finditer (pattern userId) same_block_twice))
    by (vm_compute; left; reflexivity).
  assert (Hf : find ([] ++ group0 twice_match ++ twice_rest) (group0 twice_match)
               = Some (length (@nil ascii)))
    by (vm_compute; reflexivity).
  split; [exact Hm|]. split; [exact Hf|]. split.
  - exact (proj1 (replacement_is_buffer_wide userId same_block_twice
                    twice_match [] twice_rest Hm Hf)).
  - vm_compute. reflexivity.
Defined.

(** * Further properties of the script *)

(** ** The matches of one search *)

Lemma finditer_from_ordered p s : forall pos skip,
  Forall (fun m => pos + skip <= m_start m) (finditer_from p pos skip s)
  /\ ForallOrdPairs (fun m1 m2 => m_end m1 <= m_start m2)
                    (finditer_from p pos skip s).
Proof.
  induction s as [|x s IH]; intros pos skip.
  - destruct skip; simpl; [|split; constructor].
    destruct (match_items p []); split; repeat constructor. simpl. lia.
  - assert (Hnext : forall k,
              Forall (fun m => pos + S k <= m_start m)
                     (finditer_from p (S pos) k s)).
    { intros k. destruct (IH (S pos) k) as [H _].
      eapply Forall_impl; [|exact H]. simpl. intros; lia. }
    destruct skip as [|k]; cbn [finditer_from].
    + destruct (match_items p (x :: s)) as [cs|].
      * split.
        -- constructor; [simpl; lia|].
           eapply Forall_impl; [|apply (Hnext (length (concat cs) - 1))].
           simpl. intros; lia.
        -- constructor; [|apply IH].
           eapply Forall_impl; [|apply (Hnext (length (concat cs) - 1))].
           unfold m_end, group0. simpl. intros; lia.
      * split; [|apply IH].
        eapply Forall_impl; [|apply (Hnext 0)]. simpl. intros; lia.
    + split; [|apply IH].
      eapply Forall_impl; [|apply (Hnext k)]. simpl. intros; lia.
Qed.

(** X1.  The matches [re.finditer] yields for a pattern come in the order of
    the text and do not overlap: each one ends before the next one starts;
    and the text of a match is the slice of the buffer at its span. *)
Theorem matches_are_ordered_and_disjoint p content :
  ForallOrdPairs (fun m1 m2 => m_end m1 <= m_start m2) (finditer p content)
  /\ Forall (fun m => m_end m <= length content
                      /\ firstn (length (group0 m)) (skipn (m_start m) content)
                         = group0 m)
            (finditer p content).
Proof.
  split; [apply finditer_from_ordered|].
  apply Forall_forall. intros m Hm.
  destruct (finditer_sound _ _ _ Hm) as (a & b & -> & Hs & _).
  unfold m_end. rewrite Hs, !length_app. split; [lia|].
  rewrite skipn_app, skipn_all, Nat.sub_diag. simpl.
  rewrite firstn_app, firstn_all, Nat.sub_diag. simpl. apply app_nil_r.
Qed.

(** ** The pattern matches every text of the shape *)

Lemma greedy_stop k rest s : rest s <> None -> greedy k rest s <> None.
Proof.
  intros H. assert (Hs : option_map (cons []) (rest s) <> None)
    by (destruct (rest s); [discriminate|contradiction]).
  destruct s as [|x s]; simpl; [exact Hs|].
  destruct (in_set k x); [|exact Hs].
  destruct (greedy k rest s); [discriminate|exact Hs].
Qed.

Lemma greedy_complete k rest t s :
  forallb (in_set k) t = true -> rest s <> None ->
  greedy k rest (t ++ s) <> None.
Proof.
  intros Ht Hr. induction t as [|x t IH]; [now apply greedy_stop|].
  simpl in Ht. apply andb_true_iff in Ht as [Hx Ht]. simpl. rewrite Hx.
  specialize (IH Ht). destruct (greedy k rest (t ++ s)); [discriminate|contradiction].
Qed.

Lemma lazy_complete k rest t s :
  forallb (in_set k) t = true -> rest s <> None ->
  lazy k rest (t ++ s) <> None.
Proof.
  intros Ht Hr. induction t as [|x t IH].
  - destruct s; simpl; destruct (rest _); try discriminate; contradiction.
  - simpl in Ht. apply andb_true_iff in Ht as [Hx Ht]. simpl.
    destruct (rest (x :: t ++ s)); [discriminate|]. rewrite Hx.
    specialize (IH Ht). destruct (lazy k rest (t ++ s)); [discriminate|contradiction].
Qed.

(** Whatever way a text can be read as the items of a pattern, the matcher
    finds a match. *)
Lemma match_items_complete p cs :
  Forall2 item_ok p cs -> forall r, match_items p (concat cs ++ r) <> None.
Proof.
  induction 1 as [|i t p cs Hi HF IH]; intros r; [discriminate|].
  cbn [concat]. rewrite <- app_assoc. specialize (IH r).
  destruct i as [c|k|k|k]; simpl in Hi.
  - subst t. simpl. rewrite Ascii.eqb_refl.
    destruct (match_items p (concat cs ++ r)); [discriminate|contradiction].
  - destruct Hi as [Hne Ht]. destruct t as [|x t]; [contradiction|].
    simpl in Ht. apply andb_true_iff in Ht as [Hx Ht]. simpl. rewrite Hx.
    pose proof (greedy_complete k (match_items p) t _ Ht IH) as Hg.
    destruct (greedy k (match_items p) (t ++ concat cs ++ r));
      [discriminate|contradiction].
  - simpl. now apply greedy_complete.
  - simpl. now apply lazy_complete.
Qed.

Lemma lits_ok t : Forall2 item_ok (lits t) (map single t).
Proof. induction t; simpl; constructor; auto. reflexivity. Qed.

Lemma not_set_complete c t : ~ In c t -> forallb (in_set (Not c)) t = true.
Proof.
  induction t as [|x t IH]; intros H; [reflexivity|]. simpl.
  rewrite IH by (intros Hin; apply H; now right).
  destruct (Ascii.eqb_spec x c) as [->|]; [exfalso; apply H; now left|reflexivity].
Qed.

(** A text of the shape reads as the items of the pattern. *)
Lemma shape_chunks field indent block :
  relation_shape field indent block ->
  exists cs, Forall2 item_ok (pattern field) cs /\ concat cs = block.
Proof.
  intros (ident & arg1 & w1 & w2 & w3 & q & tail & -> & (Hi & Hsi) & (Hn & Hw)
          & (Ha & Hc) & Hw1 & Hw2 & Hw3 & Hq).
  exists ([indent; ident] ++ map single (T ": one(")
          ++ [arg1; T ","; w1; T "{"; w2] ++ map single (T "fields:")
          ++ [w3; T "["; q; T "."] ++ map single field ++ map single (T "],")
          ++ [tail; T "}"; T ")"]).
  split.
  - unfold pattern.
    repeat (apply Forall2_app; [|try apply lits_ok]);
      try apply lits_ok;
      repeat (constructor; simpl; auto using not_set_complete).
    induction tail; simpl; auto.
  - repeat (rewrite concat_app || rewrite concat_singles).
    cbn [concat]. rewrite !app_nil_r.
    repeat (rewrite <- app_assoc || rewrite <- app_comm_cons). reflexivity.
Qed.

Lemma finditer_from_complete p b : forall a pos,
  match_items p b <> None -> finditer_from p pos 0 (a ++ b) <> [].
Proof.
  induction a as [|x a IH]; intros pos H.
  - simpl app. destruct b; simpl; destruct (match_items p _);
      try discriminate; contradiction.
  - simpl. destruct (match_items p (x :: a ++ b)); [discriminate|].
    apply IH, H.
Qed.

(** The buffers in which the search for a field finds something: those that
    hold a text of the shape. *)
Lemma finditer_nonempty_iff field content :
  finditer (pattern field) content <> []
  <-> exists a indent block b,
        content = a ++ block ++ b /\ relation_shape field indent block.
Proof.
  split.
  - intros H. destruct (finditer (pattern field) content) as [|m ms] eqn:E;
      [contradiction|].
    assert (Hm : In m (finditer (pattern field) content)) by (rewrite E; now left).
    destruct (finditer_sound _ _ _ Hm) as (a & b & Hs & _).
    exists a, (group1 m), (group0 m), b. split; [exact Hs|].
    eapply match_shape, Hm.
  - intros (a & indent & block & b & -> & Hs).
    destruct (shape_chunks _ _ _ Hs) as (cs & HF & <-).
    apply finditer_from_complete, match_items_complete, HF.
Qed.

(** X2.  The run leaves a buffer as it is exactly when the buffer holds, for
    no configured field, a text of the shape: white space, an identifier,
    [: one(], a first argument without comma, and an object opening with a
    [fields:] array that ends in [.field], closed further on by "})". *)
Theorem unchanged_iff_no_relation_of_the_shape fields content :
  rewrite fields content = content
  <-> forall f a indent block b,
        In f fields -> content = a ++ block ++ b ->
        ~ relation_shape f indent block.
Proof.
  rewrite rewrite_fixed_iff. split.
  - intros H f a indent block b Hf Hc Hs.
    assert (Hn : finditer (pattern f) content <> [])
      by (apply finditer_nonempty_iff; exists a, indent, block, b; auto).
    apply Hn, H, Hf.
  - intros H f Hf.
    destruct (finditer (pattern f) content) as [|m ms] eqn:E; [reflexivity|].
    exfalso.
    assert (Hn : finditer (pattern f) content <> []) by (rewrite E; discriminate).
    apply finditer_nonempty_iff in Hn as (a & indent & block & b & Hc & Hs).
    eapply H; eauto.
Qed.

(** ** The indent and the lines of a commented block *)

Lemma lstrip_app_space w r : forallb isspace w = true -> lstrip (w ++ r) = lstrip r.
Proof.
  induction w as [|c w IH]; intros H; [reflexivity|].
  simpl in *. apply andb_true_iff in H as [Hc Hw]. rewrite Hc. auto.
Qed.

(** X3.  The [indent] the script takes from a match is exactly the leading
    white space of [original]: [original == indent + original.lstrip()],
    the indent is not empty, and what follows it starts with a character of
    the identifier. *)
Theorem indent_is_the_leading_white_space field content m :
  In m (finditer (pattern field) content) ->
  group0 m = group1 m ++ lstrip (group0 m)
  /\ group1 m <> [] /\ forallb isspace (group1 m) = true
  /\ exists c rest, lstrip (group0 m) = c :: rest /\ isword c = true.
Proof.
  intros H.
  destruct (match_shape _ _ _ H)
    as (ident & arg1 & w1 & w2 & w3 & q & tail & E & (Hi & Hsi) & (Hn & Hw) & _).
  destruct ident as [|c ident]; [contradiction|].
  simpl in Hw. apply andb_true_iff in Hw as [Hc Hw].
  assert (El : lstrip (group0 m)
               = c :: ident ++ T ": one(" ++ arg1 ++ T "," ++ w1 ++ T "{" ++ w2
                 ++ T "fields:" ++ w3 ++ T "[" ++ q ++ T "." ++ field ++ T "],"
                 ++ tail ++ T "})").
  { rewrite E, lstrip_app_space by exact Hsi. cbn [app lstrip].
    now rewrite (word_not_space c Hc). }
  rewrite El. split; [exact E|]. split; [exact Hi|]. split; [exact Hsi|].
  eauto.
Qed.

Lemma indent_is_the_leading_white_space_witness :
  In (first_match userId typical_schema) (finditer (pattern userId) typical_schema)
  /\ group0 (first_match userId typical_schema)
     = group1 (first_match userId typical_schema)
       ++ lstrip (group0 (first_match userId typical_schema)).
Proof.
  assert (H : In (first_match userId typical_schema)
                 (finditer (pattern userId) typical_schema))
    by (vm_compute; left; reflexivity).
  split; [exact H|].
  apply (indent_is_the_leading_white_space userId typical_schema _ H).
Defined.

Lemma split_nl_glue a b : split_nl (a ++ nl :: b) = split_nl a ++ split_nl b.
Proof.
  induction a as [|c a IH]; cbn [app split_nl].
  - now rewrite Ascii.eqb_refl.
  - rewrite IH. destruct (Ascii.eqb c nl); [reflexivity|].
    pose proof (split_nl_nonempty a).
    destruct (split_nl a); [contradiction|reflexivity].
Qed.

Lemma commented_out_space c l :
  isspace c = true -> commented_out (c :: l) = commented_out l.
Proof. intros H. unfold commented_out. simpl. now rewrite H. Qed.

(** The lines of a white-space indent followed by the marker and a line. *)
Lemma prefixed_line_commented_out indent line :
  forallb isspace indent = true -> ~ In nl line ->
  forallb commented_out (split_nl (indent ++ T "// " ++ line)) = true.
Proof.
  intros Hi Hl. induction indent as [|c indent IH].
  - cbn [app T list_ascii_of_string]. rewrite split_nl_single; [reflexivity|].
    intros [H|[H|[H|H]]]; try discriminate. contradiction.
  - simpl in Hi. apply andb_true_iff in Hi as [Hc Hi]. specialize (IH Hi).
    cbn [app split_nl]. destruct (Ascii.eqb c nl).
    + simpl. exact IH.
    + pose proof (split_nl_nonempty (indent ++ T "// " ++ line)).
      destruct (split_nl (indent ++ T "// " ++ line)) as [|l ls];
        [contradiction|].
      simpl in *. now rewrite commented_out_space.
Qed.

Lemma blank_line_commented_out l :
  forallb isspace l = true -> commented_out l = true.
Proof.
  intros H. apply lstrip_nil in H. unfold commented_out. now rewrite H.
Qed.

Lemma comment_line_commented_out indent line :
  forallb isspace indent = true -> ~ In nl line ->
  forallb commented_out (split_nl (comment_line indent line)) = true.
Proof.
  intros Hi Hl. unfold comment_line. rewrite strip_truthy.
  destruct (forallb isspace line) eqn:E; simpl.
  - rewrite split_nl_single by exact Hl. simpl.
    now rewrite blank_line_commented_out.
  - now apply prefixed_line_commented_out.
Qed.

Lemma joined_lines_commented_out outs :
  Forall (fun out => forallb commented_out (split_nl out) = true) outs ->
  outs <> [] ->
  forallb commented_out (split_nl (join [nl] outs)) = true.
Proof.
  induction 1 as [|out outs Hout HF IH]; intros Hne; [contradiction|].
  destruct outs as [|out' outs]; [exact Hout|].
  rewrite join_cons. cbn [app]. rewrite split_nl_glue, forallb_app, Hout.
  apply IH. discriminate.
Qed.

(** X4.  With an indent of white space, as that of every match, commenting
    disables the whole block: each physical line of the commented text is
    blank or starts, after its leading white space, with the marker. *)
Theorem commented_block_is_disabled original indent :
  forallb isspace indent = true ->
  forallb commented_out (split_nl (comment original indent)) = true.
Proof.
  intros Hi. unfold comment. apply joined_lines_commented_out.
  - apply Forall_forall. intros out Hout.
    apply in_map_iff in Hout as (l & <- & Hl).
    apply comment_line_commented_out; [exact Hi|].
    pose proof (split_nl_lines original) as H.
    rewrite Forall_forall in H. apply H, Hl.
  - pose proof (split_nl_nonempty original).
    destruct (split_nl original); [contradiction|discriminate].
Qed.

Lemma commented_block_is_disabled_witness :
  forallb isspace (group1 (first_match userId typical_schema)) = true
  /\ forallb commented_out
       (split_nl (comment (group0 (first_match userId typical_schema))
                          (group1 (first_match userId typical_schema))))
     = true.
Proof.
  assert (H : forallb isspace (group1 (first_match userId typical_schema)) = true)
    by (vm_compute; reflexivity).
  split; [exact H|].
  apply (commented_block_is_disabled _ _ H).
Defined.

(** ** The size of a commented block *)

Section Measure.

(** A measure of texts that adds up over concatenation: the length, or the
    number of line feeds. *)
Variable mu : text -> nat.
Hypothesis mu_app : forall a b, mu (a ++ b) = mu a + mu b.

Lemma join_map_measure sep (f : text -> text) (marked : text -> bool) d ls :
  (forall l, mu (f l) = mu l + (if marked l then d else 0)) ->
  mu (join sep (map f ls)) = mu (join sep ls) + length (filter marked ls) * d.
Proof.
  intros Hf. induction ls as [|l ls IH]; [simpl; lia|].
  destruct ls as [|l' ls].
  - simpl. rewrite Hf. destruct (marked l); simpl; lia.
  - cbn [map] in *. rewrite !join_cons, !mu_app, IH, Hf.
    cbn [filter]. destruct (marked l); cbn [length]; lia.
Qed.

Lemma comment_measure original indent :
  mu (comment original indent)
  = mu original + nonblank_lines original * (mu indent + mu (T "// ")).
Proof.
  unfold comment, nonblank_lines.
  rewrite (join_map_measure [nl] (comment_line indent)
             (fun l => truthy (strip l)) (mu indent + mu (T "// "))).
  - now rewrite join_split_nl.
  - intros l. unfold comment_line. destruct (truthy (strip l)).
    + rewrite !mu_app. lia.
    + lia.
Qed.

End Measure.

Lemma line_feeds_app a b : line_feeds (a ++ b) = line_feeds a + line_feeds b.
Proof. apply count_occ_app. Qed.

(** A text has one line more than it has line feeds. *)
Lemma split_nl_length s : length (split_nl s) = S (line_feeds s).
Proof.
  unfold line_feeds. induction s as [|c s IH]; [reflexivity|].
  cbn [split_nl count_occ].
  destruct (Ascii.eqb_spec c nl) as [->|Hc].
  - destruct (ascii_dec nl nl); [|contradiction]. simpl. now rewrite IH.
  - destruct (ascii_dec c nl); [contradiction|].
    destruct (split_nl s); [discriminate|exact IH].
Qed.

(** X5.  Commenting adds to each non-blank line of the block the indent and
    the three characters of the marker, and nothing else: the commented text
    is longer than the block by (len(indent) + 3) per non-blank line, and has
    as many more lines as the indent has line feeds, per non-blank line. *)
Theorem comment_size original indent :
  length (comment original indent)
  = length original + nonblank_lines original * (length indent + 3)
  /\ length (split_nl (comment original indent))
     = length (split_nl original) + nonblank_lines original * line_feeds indent.
Proof.
  split.
  - apply (comment_measure (@length ascii) (@length_app ascii)).
  - rewrite !split_nl_length.
    rewrite (comment_measure line_feeds line_feeds_app).
    change (line_feeds (T "// ")) with 0. lia.
Qed.

Lemma split_nl_chars s l c : In l (split_nl s) -> In c l -> In c s.
Proof.
  revert l. induction s as [|x s IH]; intros l Hl Hc.
  - destruct Hl as [<-|[]]. contradiction.
  - cbn [split_nl] in Hl. destruct (Ascii.eqb x nl).
    + destruct Hl as [<-|Hl]; [contradiction|]. right. eauto.
    + destruct (split_nl s) as [|l0 ls]; simpl in Hl.
      * destruct Hl as [<-|[]]. destruct Hc as [<-|[]]. now left.
      * destruct Hl as [<-|Hl].
        -- destruct Hc as [<-|Hc]; [now left|]. right. apply (IH l0); auto.
           now left.
        -- right. apply (IH l); auto. now right.
Qed.

Lemma forallb_false_witness (f : ascii -> bool) l :
  forallb f l = false -> exists c, In c l /\ f c = false.
Proof.
  induction l as [|x l IH]; simpl; [discriminate|].
  destruct (f x) eqn:E; simpl.
  - intros H. destruct (IH H) as (c & Hc & Hf). eauto.
  - intros _. eauto.
Qed.

(** X6.  The commenter gives a text back unchanged exactly when the text is
    blank (empty, or white space only); any other text comes back longer. *)
Theorem comment_is_identity_iff_blank original indent :
  comment original indent = original <-> forallb isspace original = true.
Proof.
  split.
  - intros H. destruct (forallb isspace original) eqn:E; [reflexivity|].
    apply forallb_false_witness in E as (c & Hc & Hs).
    pose proof (comment_length_lt original indent c Hc Hs) as Hlt.
    rewrite H in Hlt. lia.
  - intros H. unfold comment. rewrite <- (join_split_nl original) at 2.
    f_equal. rewrite <- (map_id (split_nl original)) at 2.
    apply map_ext_in. intros l Hl. unfold comment_line.
    rewrite strip_truthy.
    assert (Hb : forallb isspace l = true).
    { apply forallb_forall. intros c Hc.
      rewrite forallb_forall in H. apply H. eapply split_nl_chars; eauto. }
    now rewrite Hb.
Qed.

(** ** How a run ends *)


(** ** Buffers that do not name a field *)

(** In a text of the shape, the name of the field stands between a dot and
    "],". *)
Lemma shape_names_field field indent block :
  relation_shape field indent block ->
  exists u v, block = u ++ (T "." ++ field ++ T "],") ++ v.
Proof.
  intros (ident & arg1 & w1 & w2 & w3 & q & tail & -> & _).
  exists (indent ++ ident ++ T ": one(" ++ arg1 ++ T "," ++ w1 ++ T "{" ++ w2
          ++ T "fields:" ++ w3 ++ T "[" ++ q), (tail ++ T "})").
  repeat (rewrite <- app_assoc || rewrite <- app_comm_cons). reflexivity.
Qed.

(** X8.  A buffer in which no configured name occurs between a dot and "],"
    is left as it is.  In particular an empty file stays empty. *)
Theorem buffer_not_naming_a_field_is_unchanged fields content :
  (forall f, In f fields -> find content (T "." ++ f ++ T "],") = None) ->
  rewrite fields content = content.
Proof.
  intros H. apply rewrite_fixed_iff. intros f Hf.
  destruct (finditer (pattern f) content) as [|m ms] eqn:E; [reflexivity|].
  exfalso.
  assert (Hm : In m (finditer (pattern f) content)) by (rewrite E; now left).
  destruct (finditer_sound _ _ _ Hm) as (a & b & Hs & _).
  destruct (shape_names_field _ _ _ (match_shape _ _ _ Hm)) as (u & v & Hg).
  specialize (H f Hf). unfold find in H.
  destruct (find_from_occurs (T "." ++ f ++ T "],") (a ++ u) (v ++ b) 0) as (i & Hi).
  rewrite Hs, Hg in H.
  replace (a ++ (u ++ (T "." ++ f ++ T "],") ++ v) ++ b)
    with ((a ++ u) ++ (T "." ++ f ++ T "],") ++ v ++ b) in H
    by (repeat rewrite <- app_assoc; reflexivity).
  congruence.
Qed.

Lemma buffer_not_naming_a_field_is_unchanged_witness :
  (forall f, In f nullable_fields -> find plain_text (T "." ++ f ++ T "],") = None)
  /\ rewrite nullable_fields plain_text = plain_text
  /\ rewrite nullable_fields [] = [].
Proof.
  assert (H : forall f, In f nullable_fields ->
                        find plain_text (T "." ++ f ++ T "],") = None).
  { intros f Hf.
    repeat (destruct Hf as [<-|Hf]; [vm_compute; reflexivity|]).
    contradiction. }
  split; [exact H|]. split.
  - apply (buffer_not_naming_a_field_is_unchanged nullable_fields plain_text H).
  - apply (buffer_not_naming_a_field_is_unchanged nullable_fields []).
    intros f _. reflexivity.
Defined.

(** ** No relation of the shape is passed over *)

Lemma finditer_from_covers p s : forall pos skip a b,
  s = a ++ b -> skip <= length a -> match_items p b <> None ->
  exists m, In m (finditer_from p pos skip s)
            /\ m_start m <= pos + length a
            /\ (pos + length a < m_end m \/ m_start m = pos + length a).
Proof.
  induction s as [|x s IH]; intros pos skip a b Hs Hk Hb.
  - symmetry in Hs. apply app_eq_nil in Hs as [-> ->].
    simpl in Hk. assert (skip = 0) as -> by lia. simpl.
    destruct (match_items p []) as [cs|]; [|contradiction].
    eexists. split; [now left|]. simpl. lia.
  - destruct skip as [|k]; cbn [finditer_from].
    + destruct a as [|y a].
      * simpl in Hs. subst b.
        destruct (match_items p (x :: s)) as [cs|]; [|contradiction].
        eexists. split; [now left|]. simpl. lia.
      * injection Hs as <- Hs.
        destruct (match_items p (x :: s)) as [cs|] eqn:E.
        -- destruct (Nat.le_gt_cases (length (concat cs) - 1) (length a))
             as [Hle|Hgt].
           ++ destruct (IH (S pos) _ a b Hs Hle Hb) as (m & Hm & H1 & H2).
              exists m. split; [now right|]. simpl. lia.
           ++ eexists. split; [now left|].
              unfold m_end, group0. simpl. lia.
        -- destruct (IH (S pos) 0 a b Hs ltac:(lia) Hb) as (m & Hm & H1 & H2).
           exists m. split; [exact Hm|]. simpl. lia.
    + destruct a as [|y a]; [simpl in Hk; lia|].
      injection Hs as <- Hs. simpl in Hk.
      destruct (IH (S pos) k a b Hs ltac:(lia) Hb) as (m & Hm & H1 & H2).
      exists m. split; [exact Hm|]. simpl. lia.
Qed.



(** ** A match depends on its own text only *)

(** The chunks of a match, with what the lazy tail guarantees. *)
Lemma match_components field s cs :
  match_items (pattern field) s = Some cs ->
  exists ws ident arg1 w1 w2 w3 q tail r,
    cs = [ws; ident] ++ map single (T ": one(")
         ++ [arg1; T ","; w1; T "{"; w2] ++ map single (T "fields:")
         ++ [w3; T "["; q; T "."] ++ map single field ++ map single (T "],")
         ++ [tail; T "}"; T ")"]
    /\ s = concat cs ++ r
    /\ (forallb isspace ws = true
        /\ (ident <> [] /\ forallb isword ident = true)
        /\ ~ In ","%char arg1
        /\ forallb isspace w1 = true /\ forallb isspace w2 = true
        /\ forallb isspace w3 = true /\ ~ In "]"%char q)
    /\ forall t1 y t2, tail = t1 ++ y :: t2 ->
                       startswith (T "})") (y :: t2 ++ T "})") = false.
Proof.
  intros H. destruct (match_items_sound _ _ _ H) as (HF & r & Hs).
  destruct (pattern_tail_minimal _ _ _ H) as (c1 & tail & Hc & Hmin).
  destruct (pattern_chunks _ _ HF)
    as (ws & ident & arg1 & w1 & w2 & w3 & q & tail' & Hcs
        & (_ & Hws) & Hid & (_ & Ha) & Hw1 & Hw2 & Hw3 & Hq).
  assert (tail = tail') as <-.
  { rewrite Hc in Hcs. repeat rewrite app_assoc in Hcs.
    now apply app_inj_last3 in Hcs as [_ ?]. }
  exists ws, ident, arg1, w1, w2, w3, q, tail, r. repeat split; auto; tauto.
Qed.

(** Two texts that stop at their first "})" and continue the same way are
    the same. *)
Lemma first_closing_unique t1 : forall t2 r1 r2,
  (forall u y v, t1 = u ++ y :: v ->
                 startswith (T "})") (y :: v ++ T "})") = false) ->
  (forall u y v, t2 = u ++ y :: v ->
                 startswith (T "})") (y :: v ++ T "})") = false) ->
  t1 ++ T "})" ++ r1 = t2 ++ T "})" ++ r2 -> t1 = t2.
Proof.
  assert (Hfirst : forall y t r r',
            (forall u y' v, y :: t = u ++ y' :: v ->
                            startswith (T "})") (y' :: v ++ T "})") = false) ->
            T "})" ++ r = (y :: t) ++ T "})" ++ r' -> False).
  { intros y t r r' Hmin E. specialize (Hmin [] y t eq_refl).
    cbn [T list_ascii_of_string app] in E. injection E as <- E.
    destruct t as [|z t]; [discriminate|]. injection E as <- E.
    cbv in Hmin. discriminate. }
  induction t1 as [|x t1 IH]; intros [|y t2] r1 r2 H1 H2 E.
  - reflexivity.
  - exfalso. eapply Hfirst; eauto.
  - exfalso. symmetry in E. eapply Hfirst; eauto.
  - cbn [app] in E. injection E as <- E. f_equal.
    apply (IH t2 r1 r2); [| |exact E].
    + intros u y v ->. apply (H1 (x :: u) y v). reflexivity.
    + intros u y v ->. apply (H2 (x :: u) y v). reflexivity.
Qed.

Lemma word_not_bracket f :
  forallb isword f = true -> forallb (in_set (Not "]")) f = true.
Proof.
  induction f as [|c f IH]; simpl; [reflexivity|].
  intros H; apply andb_true_iff in H as [Hc Hf]. rewrite IH by exact Hf.
  destruct (Ascii.eqb_spec c "]") as [->|]; [discriminate|reflexivity].
Qed.

(** A text reads as the pattern, up to its first "})", in one way only. *)
Lemma components_unique field
      ws ident arg1 w1 w2 w3 q tail r ws' ident' arg1' w1' w2' w3' q' tail' r' :
  forallb isword field = true ->
  forallb isspace ws = true -> ident <> [] -> forallb isword ident = true ->
  ~ In ","%char arg1 -> forallb isspace w1 = true -> forallb isspace w2 = true ->
  forallb isspace w3 = true -> ~ In "]"%char q ->
  (forall u y v, tail = u ++ y :: v ->
                 startswith (T "})") (y :: v ++ T "})") = false) ->
  forallb isspace ws' = true -> ident' <> [] -> forallb isword ident' = true ->
  ~ In ","%char arg1' -> forallb isspace w1' = true -> forallb isspace w2' = true ->
  forallb isspace w3' = true -> ~ In "]"%char q' ->
  (forall u y v, tail' = u ++ y :: v ->
                 startswith (T "})") (y :: v ++ T "})") = false) ->
  ws ++ ident ++ T ": one(" ++ arg1 ++ T "," ++ w1 ++ T "{" ++ w2
  ++ T "fields:" ++ w3 ++ T "[" ++ q ++ T "." ++ field ++ T "],"
  ++ tail ++ T "})" ++ r
  = ws' ++ ident' ++ T ": one(" ++ arg1' ++ T "," ++ w1' ++ T "{" ++ w2'
    ++ T "fields:" ++ w3' ++ T "[" ++ q' ++ T "." ++ field ++ T "],"
    ++ tail' ++ T "})" ++ r' ->
  ws = ws' /\ ident = ident' /\ arg1 = arg1' /\ w1 = w1' /\ w2 = w2'
  /\ w3 = w3' /\ q = q' /\ tail = tail'.
Proof.
  intros Hf Hws Hn Hid Ha Hw1 Hw2 Hw3 Hq Hmin Hws' Hn' Hid' Ha' Hw1' Hw2' Hw3'
         Hq' Hmin' E.
  destruct ident as [|c ident]; [contradiction|].
  destruct ident' as [|c' ident']; [contradiction|].
  simpl in Hid, Hid'.
  apply andb_true_iff in Hid as [Hc Hid]. apply andb_true_iff in Hid' as [Hc' Hid'].
  cbn [T list_ascii_of_string app] in E.
  apply (run_unique isspace) in E as (<- & <- & E); auto using word_not_space.
  apply (run_unique isword) in E as (<- & _ & E); auto.
  injection E as E.
  apply (run_unique (in_set (Not ","))) in E as (<- & _ & E);
    auto using not_set_complete.
  apply (run_unique isspace) in E as (<- & _ & E); auto.
  apply (run_unique isspace) in E as (<- & _ & E); auto.
  injection E as E.
  apply (run_unique isspace) in E as (<- & _ & E); auto.
  assert (Eq : (q ++ "."%char :: field) ++ "]"%char :: ","%char :: tail
                 ++ "}"%char :: ")"%char :: r
               = (q' ++ "."%char :: field) ++ "]"%char :: ","%char :: tail'
                 ++ "}"%char :: ")"%char :: r').
  { repeat (rewrite <- app_assoc || rewrite <- app_comm_cons). exact E. }
  apply (run_unique (in_set (Not "]"))) in Eq as (Eq & _ & Et); auto.
  - apply app_inv_tail in Eq as <-. injection Et as Et.
    assert (tail = tail') as <-
      by (apply (first_closing_unique tail tail' r r' Hmin Hmin' Et)).
    repeat split; reflexivity.
  - rewrite forallb_app. rewrite not_set_complete by exact Hq.
    simpl. now apply word_not_bracket.
  - rewrite forallb_app. rewrite not_set_complete by exact Hq'.
    simpl. now apply word_not_bracket.
Qed.

Lemma finditer_head p s cs :
  match_items p s = Some cs ->
  hd_error (finditer p s) = Some {| m_start := 0; m_chunks := cs |}.
Proof. unfold finditer. destruct s; simpl; intros ->; reflexivity. Qed.

(** What follows the text of a match plays no part in the match. *)
Lemma match_items_context field s cs after :
  forallb isword field = true ->
  match_items (pattern field) s = Some cs ->
  match_items (pattern field) (concat cs ++ after) = Some cs.
Proof.
  intros Hf H.
  destruct (match_items_sound _ _ _ H) as (HF & _).
  destruct (match_items (pattern field) (concat cs ++ after)) as [cs'|] eqn:H';
    [|exfalso; exact (match_items_complete _ _ HF after H')].
  f_equal.
  destruct (match_components _ _ _ H)
    as (ws & ident & arg1 & w1 & w2 & w3 & q & tail & r & Hcs & _
        & (Hws & (Hn & Hid) & Ha & Hw1 & Hw2 & Hw3 & Hq) & Hmin).
  destruct (match_components _ _ _ H')
    as (ws' & ident' & arg1' & w1' & w2' & w3' & q' & tail' & r' & Hcs' & Hs'
        & (Hws' & (Hn' & Hid') & Ha' & Hw1' & Hw2' & Hw3' & Hq') & Hmin').
  rewrite Hcs, Hcs' in Hs'.
  repeat (rewrite concat_app in Hs' || rewrite concat_singles in Hs').
  cbn [concat] in Hs'. rewrite !app_nil_r in Hs'.
  repeat (rewrite <- app_assoc in Hs').
  symmetry in Hs'.
  destruct (components_unique field
              ws' ident' arg1' w1' w2' w3' q' tail' r'
              ws ident arg1 w1 w2 w3 q tail after)
    as (-> & -> & -> & -> & -> & -> & -> & ->); auto.
  now rewrite Hcs, Hcs'.
Qed.

(** X10.  For a field name made of identifier characters, a match depends on
    its own text only: wherever the text of a match stands at the start of a
    buffer, whatever follows it, the search finds there first the same text
    with the same groups.  So every occurrence of [original] that
    [content.replace] rewrites is a text the pattern matches in full. *)
Theorem match_depends_on_its_text_only field content m after :
  forallb isword field = true ->
  In m (finditer (pattern field) content) ->
  match_items (pattern field) (group0 m ++ after) = Some (m_chunks m)
  /\ hd_error (finditer (pattern field) (group0 m ++ after))
     = Some {| m_start := 0; m_chunks := m_chunks m |}.
Proof.
  intros Hf Hm.
  destruct (finditer_sound _ _ _ Hm) as (a & b & _ & _ & H & _).
  assert (H0 : match_items (pattern field) (group0 m ++ after)
               = Some (m_chunks m))
    by (apply (match_items_context field _ _ after Hf H)).
  split; [exact H0|]. apply finditer_head, H0.
Qed.

Lemma match_depends_on_its_text_only_witness :
  forallb isword userId = true
  /\ In twice_match (finditer (pattern userId) same_block_twice)
  /\ hd_error (finditer (pattern userId) (group0 twice_match ++ T "}));"))
     = Some {| m_start := 0; m_chunks := m_chunks twice_match |}.
Proof.
  assert (Hf : forallb isword userId = true) by reflexivity.
  assert (Hm : In twice_match (finditer (pattern userId) same_block_twice))
    by (vm_compute; left; reflexivity).
  split; [exact Hf|]. split; [exact Hm|].
  exact (proj2 (match_depends_on_its_text_only userId same_block_twice
                  twice_match (T "}));") Hf Hm)).
Defined.

(** ** The first match of a field is replaced where it was found *)

Lemma find_from_leftmost old b : forall a pos i,
  find_from old pos (a ++ old ++ b) = Some i -> i <= pos + length a.
Proof.
  induction a as [|x a IH]; intros pos i H.
  - simpl app in H. destruct (old ++ b) eqn:E; simpl in H;
      rewrite <- E, startswith_app in H; injection H as <-; simpl; lia.
  - simpl in H. destruct (startswith old (x :: a ++ old ++ b)).
    + injection H as <-. lia.
    + apply IH in H. simpl. lia.
Qed.

(** The text of the first match of a field does not occur before the
    match. *)
Lemma first_match_is_leftmost field content m ms :
  forallb isword field = true ->
  finditer (pattern field) content = m :: ms ->
  find content (group0 m) = Some (m_start m).
Proof.
  intros Hf E.
  assert (Hm : In m (finditer (pattern field) content)) by (rewrite E; now left).
  destruct (finditer_sound _ _ _ Hm) as (a & b & Hs & Hstart & H & _).
  unfold find.
  destruct (find_from_occurs (group0 m) a b 0) as (i & Hi).
  rewrite <- Hs in Hi. rewrite Hi. f_equal.
  assert (Hle : i <= length a)
    by (rewrite Hs in Hi; apply find_from_leftmost in Hi; exact Hi).
  destruct (find_from_split _ _ _ _ Hi) as (a' & b' & Hs' & Hi' & _).
  simpl in Hi'. subst i.
  destruct (Nat.eq_dec (length a') (length a)) as [Heq|Hne]; [lia|].
  exfalso.
  destruct (finditer_from_covers (pattern field) content 0 0 a' (group0 m ++ b'))
    as (m' & Hm' & H1 & _).
  - exact Hs'.
  - lia.
  - unfold group0. rewrite (match_items_context field _ _ b' Hf H). discriminate.
  - fold (finditer (pattern field) content) in Hm'. rewrite E in Hm'.
    simpl in H1. destruct Hm' as [<-|Hm']; [lia|].
    pose proof (finditer_from_ordered (pattern field) content 0 0) as [_ Hord].
    fold (finditer (pattern field) content) in Hord. rewrite E in Hord.
    inversion Hord as [|? ? Hall _]; subst.
    rewrite Forall_forall in Hall. specialize (Hall m' Hm').
    unfold m_end in Hall. lia.
Qed.

(** X11.  For a field name made of identifier characters, the replacement
    for the first match of the field takes place at the match: what stands
    before the match is kept as it is, the commented text follows, and the
    substitution goes on in what follows the match. *)
Theorem first_match_is_replaced_in_place field content m ms :
  forallb isword field = true ->
  finditer (pattern field) content = m :: ms ->
  apply_match content m
  = firstn (m_start m) content ++ comment (group0 m) (group1 m)
    ++ apply_match (skipn (m_end m) content) m.
Proof.
  intros Hf E.
  pose proof (first_match_is_leftmost field content m ms Hf E) as Hfind.
  assert (Hm : In m (finditer (pattern field) content)) by (rewrite E; now left).
  destruct (finditer_sound _ _ _ Hm) as (a & b & Hs & Hstart & _).
  assert (Hne : group0 m <> []) by (eapply shape_nonempty, match_shape, Hm).
  unfold m_end. rewrite Hstart. rewrite Hs at 2 3.
  rewrite firstn_app, firstn_all, Nat.sub_diag. cbn [firstn]. rewrite app_nil_r.
  replace (skipn (length a + length (group0 m)) (a ++ group0 m ++ b)) with b.
  - rewrite Hs in Hfind |- *. rewrite Hstart in Hfind.
    unfold apply_match. rewrite !replace_nonempty by exact Hne.
    apply replace_from_leftmost; assumption.
  - rewrite app_assoc, skipn_app, skipn_all2 by (rewrite length_app; lia).
    rewrite length_app, Nat.sub_diag. reflexivity.
Qed.

Lemma first_match_is_replaced_in_place_witness :
  forallb isword userId = true
  /\ finditer (pattern userId) typical_schema
     = [first_match userId typical_schema]
  /\ apply_match typical_schema (first_match userId typical_schema)
     = firstn 62 typical_schema
       ++ comment (group0 (first_match userId typical_schema))
                  (group1 (first_match userId typical_schema))
       ++ apply_match (skipn 146 typical_schema)
                      (first_match userId typical_schema).
Proof.
  assert (Hf : forallb isword userId = true) by reflexivity.
  assert (E : finditer (pattern userId) typical_schema
              = [first_match userId typical_schema])
    by (vm_compute; reflexivity).
  split; [exact Hf|]. split; [exact E|].
  exact (first_match_is_replaced_in_place userId typical_schema _ [] Hf E).
Defined.
